(** * EmbeddingFlow: the tokenize / hash / embed / render pipeline of [app.js]

    A shallow embedding of [src/app.js].  JavaScript strings are sequences of
    UTF-16 code units, modelled as [list Z]; JavaScript numbers are binary64
    floats, modelled with Rocq's primitive floats wherever the source computes
    with fractions, and with [Z] where the source only ever holds integers
    below 2^53 (hash accumulator, array lengths, loop counters).

    Three services of the host are not part of the repository and are taken as
    section variables: the Unicode lower-casing of code units outside ASCII,
    [Math.sin], and the shortest-digits printing of numbers that are not small
    integers. *)

From Stdlib Require Import String Ascii.
From Stdlib Require Import ZArith List Bool Lia Zpower.
From Stdlib Require Import Floats.
Import ListNotations.

Local Open Scope Z_scope.

(** ** JavaScript strings *)

Module JsString.

(** A string is the list of its UTF-16 code units. *)
Definition t := list Z.

(** The code units of an ASCII literal. *)
Fixpoint codes (s : string) : t :=
  match s with
  | EmptyString => []
  | String a r => Z.of_N (N_of_ascii a) :: codes r
  end.

Definition eqb (a b : t) : bool :=
  if list_eq_dec Z.eq_dec a b then true else false.

(** [\s] of a regular expression, and the characters [trim] strips:
    WhiteSpace and LineTerminator of ECMAScript. *)
Definition isSpace (c : Z) : bool :=
  ((9 <=? c) && (c <=? 13))
  || (c =? 32) || (c =? 160) || (c =? 5760)
  || ((8192 <=? c) && (c <=? 8202))
  || (c =? 8232) || (c =? 8233) || (c =? 8239) || (c =? 8287)
  || (c =? 12288) || (c =? 65279).

(** [\w] of a regular expression without the [i] and [u] flags:
    [A-Za-z0-9_]. *)
Definition isWord (c : Z) : bool :=
  ((65 <=? c) && (c <=? 90))
  || ((97 <=? c) && (c <=? 122))
  || ((48 <=? c) && (c <=? 57))
  || (c =? 95).

Fixpoint dropSpaces (s : t) : t :=
  match s with
  | [] => []
  | c :: r => if isSpace c then dropSpaces r else s
  end.

(** [String.prototype.trim]. *)
Definition trim (s : t) : t :=
  rev (dropSpaces (rev (dropSpaces s))).

Definition asciiLower (c : Z) : Z :=
  if (65 <=? c) && (c <=? 90) then c + 32 else c.

(** [s.replace(/[^\w\s]/g, ' $& ')]: every code unit that is neither a word
    character nor white space is put between two spaces. *)
Definition isolate (c : Z) : t :=
  if isWord c || isSpace c then [c] else [32; c; 32].

Definition isolatePunctuation (s : t) : t := flat_map isolate s.

(** [s.split(/\s+/)].  [piece] is the current piece, reversed; [inGap] says
    that the previous code unit belonged to a separator.  A separator at the
    very start or end gives an empty first or last piece, and the empty
    string splits into one empty piece, as in JavaScript. *)
Fixpoint splitFrom (piece : t) (inGap : bool) (s : t) : list t :=
  match s with
  | [] => [rev piece]
  | c :: r =>
      if isSpace c
      then if inGap then splitFrom [] true r
           else rev piece :: splitFrom [] true r
      else splitFrom (c :: piece) false r
  end.

Definition splitSpaces (s : t) : list t := splitFrom [] false s.

(** [Boolean] of a string: only the empty string is falsy. *)
Definition truthy (s : t) : bool :=
  match s with [] => false | _ :: _ => true end.

(** [Array.prototype.join]. *)
Fixpoint join (sep : t) (l : list t) : t :=
  match l with
  | [] => []
  | [a] => a
  | a :: r => a ++ sep ++ join sep r
  end.

Fixpoint digitsOf (fuel : nat) (n : Z) (acc : t) : t :=
  match fuel with
  | O => acc
  | S f =>
      let acc' := (48 + n mod 10) :: acc in
      if n / 10 =? 0 then acc' else digitsOf f (n / 10) acc'
  end.

(** Decimal digits of an integer, as [Number::toString] prints integers
    below 10^21. *)
Definition ofInt (n : Z) : t :=
  if n <? 0
  then 45 :: digitsOf (S (Z.to_nat (Z.log2 (- n)))) (- n) []
  else digitsOf (S (Z.to_nat (Z.log2 n))) n [].

End JsString.

Import JsString.

(** ** Tokenizer and identifier hasher *)

Section Tokenizer.

(** The host's Unicode lower-casing of a code unit outside ASCII, given the
    code units before it (nearest first) and after it.  It may depend on
    the context (final sigma, surrogate pairs) and may give several code
    units. *)
Variable unicodeLower : JsString.t -> Z -> JsString.t -> JsString.t.

Fixpoint lowerFrom (before s : JsString.t) : JsString.t :=
  match s with
  | [] => []
  | c :: r =>
      (if c <? 128 then [asciiLower c] else unicodeLower before c r)
        ++ lowerFrom (c :: before) r
  end.

(** [String.prototype.toLowerCase]. *)
Definition toLowerCase (s : JsString.t) : JsString.t := lowerFrom [] s.

(** [tokenize(text)]. *)
Definition tokenize (text : JsString.t) : list JsString.t :=
  if negb (truthy text) || negb (truthy (trim text)) then []
  else
    filter truthy
      (splitSpaces (isolatePunctuation (toLowerCase (trim text)))).

End Tokenizer.

(** [x >>> 0] on an integer-valued number: [ToUint32]. *)
Definition toUint32 (x : Z) : Z := x mod 2 ^ 32.

(** [tokenToId(token)]: the loop body is [h = (h * 31 + charCodeAt(i)) >>> 0],
    and [%] is the truncating remainder of JavaScript. *)
Definition hashStep (h c : Z) : Z := toUint32 (h * 31 + c).

Definition tokenToId (token : JsString.t) : Z :=
  Z.rem (fold_left hashStep token 0) 1024.

(** The hash as the specification words it. *)
Fixpoint hashSpec (acc : Z) (token : JsString.t) : Z :=
  match token with
  | [] => acc
  | c :: r => hashSpec ((acc * 31 + c) mod 2 ^ 32) r
  end.

Definition tokenToIdSpec (token : JsString.t) : Z :=
  hashSpec 0 token mod 1024.


(** ** Numbers *)

Module JsNumber.

Local Open Scope float_scope.

(** An integer below 2^63 in absolute value as a number (exact below
    2^53, which covers ids, counters, lengths and the integer constants of
    the source). *)
Definition ofZ (z : Z) : float :=
  if (z <? 0)%Z then - of_uint63 (Uint63.of_Z (- z))
  else of_uint63 (Uint63.of_Z z).

Definition ofNat (n : nat) : float := ofZ (Z.of_nat n).

(** [Math.round]: the integer nearest to [x], ties towards +infinity;
    numbers that are integral or not finite are returned unchanged, and a
    negative [x] that rounds to zero gives -0.  The integer is computed
    exactly from the mantissa and exponent of [x]. *)
Definition Math_round (x : float) : float :=
  match Prim2SF x with
  | S754_finite s m e =>
      if (0 <=? e)%Z then x
      else
        let k := (- e)%Z in
        let sm := if s then Z.neg m else Z.pos m in
        let n := ((2 * sm + 2 ^ k) / 2 ^ (k + 1))%Z in
        if (n =? 0)%Z then (if s then neg_zero else zero) else ofZ n
  | _ => x
  end.

(** The integer a number holds, when it holds one. *)
Definition toInteger (x : float) : option Z :=
  match Prim2SF x with
  | S754_zero _ => Some 0%Z
  | S754_finite s m e =>
      let sm := if s then Z.neg m else Z.pos m in
      if (0 <=? e)%Z then Some (sm * 2 ^ e)%Z
      else if (Z.pos m mod 2 ^ (- e) =? 0)%Z then Some (sm / 2 ^ (- e))%Z
      else None
  | _ => None
  end.

(** [a || b] on numbers: 0, -0 and NaN are falsy. *)
Definition orElse (a b : float) : float :=
  if is_nan a || is_zero a then b else a.

(** One step of [Math.min] and of [Math.max] over their arguments, as
    ECMAScript words them: NaN is contagious, -0 is below +0. *)
Definition minStep (lowest x : float) : float :=
  if is_nan lowest || is_nan x then nan
  else if is_zero x && is_zero lowest && get_sign x then x
  else if x <? lowest then x else lowest.

Definition maxStep (highest x : float) : float :=
  if is_nan highest || is_nan x then nan
  else if is_zero x && is_zero highest && negb (get_sign x) then x
  else if highest <? x then x else highest.

Definition Math_min (l : list float) : float := fold_left minStep l infinity.
Definition Math_max (l : list float) : float :=
  fold_left maxStep l neg_infinity.

Section Printing.

(** [Number::toString] of the host for the numbers that are neither NaN,
    infinite nor integers below 2^53: the shortest digits that read back
    as the number. *)
Variable hostNumberToString : float -> JsString.t.

(** [Number::toString], used by template literals. *)
Definition toString (x : float) : JsString.t :=
  if is_nan x then codes "NaN"
  else if is_infinity x
  then (if get_sign x then codes "-Infinity" else codes "Infinity")
  else
    match toInteger x with
    | Some z =>
        if (Z.abs z <? 2 ^ 53)%Z then ofInt z else hostNumberToString x
    | None => hostNumberToString x
    end.

(** [x.toFixed(2)]: below 10^21 in absolute value the digits of the integer [n] nearest to
    [|x| * 100] (the larger one on a tie), with a point before the last
    two. *)
Definition toFixed2 (x : float) : JsString.t :=
  match Prim2SF x with
  | S754_zero _ => codes "0.00"
  | S754_finite s m e =>
      let n :=
        if (0 <=? e)%Z then (Z.pos m * 2 ^ e * 100)%Z
        else ((200 * Z.pos m + 2 ^ (- e)) / 2 ^ (1 - e))%Z in
      if 1e21 <=? abs x then hostNumberToString x
      else
        (if s then [45%Z] else [])
          ++ ofInt (n / 100) ++ [46%Z]
          ++ [(48 + (n / 10) mod 10)%Z; (48 + n mod 10)%Z]
  | _ => toString x
  end.

End Printing.

End JsNumber.

Import JsNumber.


(** ** Embedder *)

Section Embedder.

Local Open Scope float_scope.
Local Set Warnings "-inexact-float".

(** [Math.sin] of the host (implementation-approximated in ECMAScript). *)
Variable Math_sin : float -> float.

(** The value pushed for dimension [d]. *)
Definition embedValue (id : float) (d : nat) : float :=
  let x := Math_sin (id * 0.1 + ofNat d * 0.5) * 0.5 + 0.5 in
  Math_round (x * 100) / 100.

(** The [for] loop of [embedToken]: [n] iterations are left, [d] is the
    counter and [vec] the array built so far. *)
Fixpoint embedLoop (id : float) (n d : nat) (vec : list float) : list float :=
  match n with
  | O => vec
  | S n' => embedLoop id n' (S d) (vec ++ [embedValue id d])
  end.

(** [embedToken(id, dim)]. *)
Definition embedToken (id : float) (dim : nat) : list float :=
  embedLoop id dim 0 [].

End Embedder.

(** ** Page state and renderer *)

(** A [div] made by [createCell], with the strings the renderer assigns to
    its two style properties ([[]] when it assigns none). *)
Record Cell := mkCell {
  className : JsString.t;
  textContent : JsString.t;
  style_background : JsString.t;
  style_color : JsString.t }.

(** The elements the script holds, reduced to the properties it reads or
    writes.  [matrixContainer_hasMatrix] says whether the class list of the
    container holds [has-matrix]. *)
Record Dom := mkDom {
  textInput_value : JsString.t;
  tokensOut_textContent : JsString.t;
  idsOut_textContent : JsString.t;
  matrixMeta_textContent : JsString.t;
  matrixContainer_hasMatrix : bool;
  matrixGrid_gridTemplateColumns : JsString.t;
  matrixGrid_gridTemplateRows : JsString.t;
  matrixGrid_children : list Cell }.

(** The em dash placeholder, the multiplication sign and the ellipsis. *)
Definition emDash : JsString.t := [8212].
Definition timesSign : JsString.t := [215].
Definition ellipsis : JsString.t := [8230].

(** [createCell(text, className)]; the class name is never empty here. *)
Definition createCell (text cls : JsString.t) : Cell :=
  mkCell (codes "matrix-cell " ++ cls) text [] [].

(** [array.map((x, i) => f(x, i))], from index [i] on. *)
Fixpoint mapFrom {A B : Type} (f : A -> nat -> B) (i : nat) (l : list A)
  : list B :=
  match l with
  | [] => []
  | a :: r => f a i :: mapFrom f (S i) r
  end.

(** Running a list of steps that may throw, collecting what they append. *)
Fixpoint collect {A : Type} (l : list (option (list A))) : option (list A) :=
  match l with
  | [] => Some []
  | None :: _ => None
  | Some a :: r =>
      match collect r with
      | Some b => Some (a ++ b)
      | None => None
      end
  end.

(** The label of a row: [tokens[r].length > 10 ? tokens[r].slice(0, 8) + '…'
    : tokens[r]]. *)
Definition tokenLabel (token : JsString.t) : JsString.t :=
  if (10 <? length token)%nat then firstn 8 token ++ ellipsis else token.

Section Renderer.

Local Open Scope float_scope.

Variable hostNumberToString : float -> JsString.t.

(** The colour of [heatmapColor] at the position [t] between the two
    anchors: the three channels and the [rgb(r,g,b)] template. *)
Definition colorAt (t : float) : JsString.t :=
  let r := Math_round (125 + (1 - t) * 130) in
  let g := Math_round (211 + (1 - t) * 44) in
  let b := Math_round 252 in
  codes "rgb(" ++ toString hostNumberToString r ++ codes ","
    ++ toString hostNumberToString g ++ codes ","
    ++ toString hostNumberToString b ++ codes ")".

(** [heatmapColor(value)], a closure over [min] and [range]. *)
Definition heatmapColor (min range value : float) : JsString.t :=
  let t := (value - min) / range in
  colorAt t.

(** The cell of a value, as the inner loop builds it. *)
Definition valueCell (min range value : float) : Cell :=
  let cell := createCell (toFixed2 hostNumberToString value) (codes "value") in
  mkCell (className cell) (textContent cell)
    (heatmapColor min range value)
    (if 0.5 <? value then codes "var(--bg)" else codes "var(--text)").

(** One turn of the inner loop: the cell of [matrix[r][c]].  Calling
    [value.toFixed] on a missing entry throws ([None]). *)
Definition cellStep (min range : float) (row : list float) (c : nat)
  : option (list Cell) :=
  match nth_error row c with
  | Some value => Some [valueCell min range value]
  | None => None
  end.

(** One turn of the outer loop: the label of row [r] and its [cols] value
    cells.  Reading [tokens[r].length] of a missing token throws. *)
Definition renderRow (tokens : list JsString.t) (matrix : list (list float))
    (min range : float) (cols r : nat) : option (list Cell) :=
  match nth_error tokens r, nth_error matrix r with
  | Some token, Some row =>
      match collect (map (cellStep min range row) (seq 0 cols)) with
      | Some cells =>
          Some (createCell (tokenLabel token) (codes "token-label") :: cells)
      | None => None
      end
  | _, _ => None
  end.

(** The scale of the heat map: [min], [max] and [range] over
    [matrix.flat()]. *)
Definition heatMin (matrix : list (list float)) : float :=
  Math_min (concat matrix).

Definition heatMax (matrix : list (list float)) : float :=
  Math_max (concat matrix).

Definition heatRange (matrix : list (list float)) : float :=
  orElse (heatMax matrix - heatMin matrix) 1.

(** [renderMatrix(tokens, matrix)]; [None] is a thrown [TypeError]
    ([matrix[0].length] of an empty matrix, or a missing token or value). *)
Definition renderMatrix (tokens : list JsString.t)
    (matrix : list (list float)) (dom : Dom) : option Dom :=
  let rows := length matrix in
  match matrix with
  | [] => None
  | row0 :: _ =>
      let cols := length row0 in
      let min := heatMin matrix in
      let range := heatRange matrix in
      let corner := createCell [] (codes "corner dim-label token-label") in
      let headers :=
        map (fun c => createCell (codes "d" ++ ofInt (Z.of_nat c))
                        (codes "dim-label"))
          (seq 0 cols) in
      match
        collect (map (renderRow tokens matrix min range cols) (seq 0 rows))
      with
      | Some body =>
          Some (mkDom (textInput_value dom)
                  (tokensOut_textContent dom)
                  (idsOut_textContent dom)
                  (matrixMeta_textContent dom)
                  (matrixContainer_hasMatrix dom)
                  (codes "auto repeat(" ++ ofInt (Z.of_nat cols)
                     ++ codes ", 22px)")
                  (codes "auto repeat(" ++ ofInt (Z.of_nat rows)
                     ++ codes ", 22px)")
                  (corner :: headers ++ body))
      | None => None
      end
  end.

End Renderer.

(** ** The pipeline *)

Definition dim : nat := 8.

(** The three summaries of the pipeline panel:
    [tokens.length ? tokens.join(', ') : '—'] and its two siblings. *)
Definition tokensSummary (tokens : list JsString.t) : JsString.t :=
  match tokens with
  | [] => emDash
  | _ :: _ => join (codes ", ") tokens
  end.

Definition idsSummary (ids : list Z) : JsString.t :=
  match ids with
  | [] => emDash
  | _ :: _ => join (codes ", ") (map ofInt ids)
  end.

Definition matrixSummary (matrix : list (list float)) : JsString.t :=
  match matrix with
  | [] => emDash
  | _ :: _ =>
      ofInt (Z.of_nat (length matrix)) ++ codes " " ++ timesSign
        ++ codes " " ++ ofInt (Z.of_nat dim) ++ codes " (tokens "
        ++ timesSign ++ codes " dimensions)"
  end.

Section Pipeline.

Variable unicodeLower : JsString.t -> Z -> JsString.t -> JsString.t.
Variable Math_sin : float -> float.
Variable hostNumberToString : float -> JsString.t.

(** [ids[i]] as a number; a missing entry is [undefined], which arithmetic
    turns into NaN. *)
Definition idAt (ids : list Z) (i : nat) : float :=
  match nth_error ids i with
  | Some id => ofZ id
  | None => nan
  end.

(** The first lines of [runPipeline]: text, tokens, ids and matrix. *)
Definition pipelineText (dom : Dom) : JsString.t :=
  trim (textInput_value dom).

Definition pipelineTokens (dom : Dom) : list JsString.t :=
  tokenize unicodeLower (pipelineText dom).

Definition pipelineIds (dom : Dom) : list Z :=
  map tokenToId (pipelineTokens dom).

Definition pipelineMatrix (dom : Dom) : list (list float) :=
  mapFrom (fun _ i => embedToken Math_sin (idAt (pipelineIds dom) i) dim) 0
    (pipelineTokens dom).

(** [runPipeline()]; [None] is a thrown exception. *)
Definition runPipeline (dom : Dom) : option Dom :=
  let tokens := pipelineTokens dom in
  let ids := pipelineIds dom in
  let matrix := pipelineMatrix dom in
  let dom1 :=
    mkDom (textInput_value dom)
      (tokensSummary tokens) (idsSummary ids) (matrixSummary matrix)
      (matrixContainer_hasMatrix dom)
      (matrixGrid_gridTemplateColumns dom)
      (matrixGrid_gridTemplateRows dom)
      (matrixGrid_children dom) in
  match matrix with
  | [] =>
      Some (mkDom (textInput_value dom1)
              (tokensOut_textContent dom1)
              (idsOut_textContent dom1)
              (matrixMeta_textContent dom1)
              false
              (matrixGrid_gridTemplateColumns dom1)
              (matrixGrid_gridTemplateRows dom1)
              [])
  | _ :: _ =>
      renderMatrix hostNumberToString tokens matrix
        (mkDom (textInput_value dom1)
           (tokensOut_textContent dom1)
           (idsOut_textContent dom1)
           (matrixMeta_textContent dom1)
           true
           (matrixGrid_gridTemplateColumns dom1)
           (matrixGrid_gridTemplateRows dom1)
           (matrixGrid_children dom1))
  end.

(** The [input] listener of the text field. *)
Definition onInput (dom : Dom) : Dom :=
  match trim (textInput_value dom) with
  | [] =>
      mkDom (textInput_value dom)
        (tokensOut_textContent dom)
        (idsOut_textContent dom)
        (matrixMeta_textContent dom)
        false
        (matrixGrid_gridTemplateColumns dom)
        (matrixGrid_gridTemplateRows dom)
        []
  | _ => dom
  end.

End Pipeline.


(** ** Values of binary64 numbers, for the proofs *)

(** The value [m * 2^e] scaled by [2^2200], an integer for every exponent
    that the arithmetic on binary64 numbers meets. *)
Definition scaled (m e : Z) : Z := m * 2 ^ (e + 2200).

Arguments scaled : simpl never.

(** The scaled value of a finite number; 0 for the others. *)
Definition SFkey (x : spec_float) : Z :=
  match x with
  | S754_finite false m e => scaled (Z.pos m) e
  | S754_finite true m e => - scaled (Z.pos m) e
  | _ => 0
  end.

Definition SFfinite (x : spec_float) : Prop :=
  match x with
  | S754_zero _ | S754_finite _ _ _ => True
  | _ => False
  end.

(** ** Predicates of the statements *)

(** Classes of strings and lists, for the statements. *)
Definition noSpace (s : JsString.t) : Prop :=
  Forall (fun c => isSpace c = false) s.

Definition allSpace (s : JsString.t) : Prop :=
  Forall (fun c => isSpace c = true) s.

Definition allWord (s : JsString.t) : Prop :=
  Forall (fun c => isWord c = true) s.

(** The shape of a token: a run of word characters, or one character that is
    neither a word character nor white space. *)
Definition wordRun (tok : JsString.t) : Prop :=
  tok <> [] /\ allWord tok.

Definition punctuationMark (tok : JsString.t) : Prop :=
  exists c, tok = [c] /\ isWord c = false /\ isSpace c = false.

Definition allFinite (l : list float) : Prop :=
  Forall (fun v => SFfinite (Prim2SF v)) l.

(** ** Statements and sample hosts, for the proofs *)

(** The multiply-by-31 hash without any wrap-around. *)
Definition polyHash (token : JsString.t) : Z :=
  fold_left (fun h c => h * 31 + c) token 0.

(** The heat map claim as the specification states it: in a matrix every
    cell that holds the minimum is painted the colour of [t = 0] and every
    cell that holds the maximum the colour of [t = 1]. *)
Definition anchorsClaim (hostNumberToString : float -> JsString.t)
    (matrix : list (list float)) : Prop :=
  forall value : float,
    In value (concat matrix) ->
    ((value =? heatMin matrix)%float = true ->
     heatmapColor hostNumberToString (heatMin matrix) (heatRange matrix) value
     = colorAt hostNumberToString 0%float)
    /\ ((value =? heatMax matrix)%float = true ->
        heatmapColor hostNumberToString (heatMin matrix) (heatRange matrix)
          value
        = colorAt hostNumberToString 1%float).

(** Sample host services, to run the definitions on concrete inputs: a
    lower-casing that knows the Latin-1 letters, a sine by its Taylor
    polynomial of degree 5 kept inside [-1, 1], and a printer of digits that
    gives up on the numbers the model does not print itself. *)
Definition sampleLower (before : JsString.t) (c : Z) (after : JsString.t)
  : JsString.t :=
  if (192 <=? c) && (c <=? 222) && negb (c =? 215) then [c + 32] else [c].

Definition sampleSin (x : float) : float :=
  let p := (x - x * x * x / 6 + x * x * x * x * x / 120)%float in
  if ((-1 <=? p) && (p <=? 1))%float then p else 0%float.

Definition sampleDigits (x : float) : JsString.t := codes "?".

(** A page with the given text in the input field and nothing shown. *)
Definition blankPage (text : JsString.t) : Dom :=
  mkDom text [] [] [] false [] [] [].

(** A page that still shows the result of an earlier run. *)
Definition usedPage (text : JsString.t) : Dom :=
  mkDom text (codes "old, tokens") (codes "1, 2") (codes "2 x 8") true
    (codes "auto") (codes "auto") [createCell (codes "old") (codes "value")].

Definition sampleTokens : list JsString.t :=
  [codes "internationalization"; codes "cat"].

Definition sampleMatrix : list (list float) :=
  [[0.5; 0.25]; [0.75; 1]]%float.

Definition sampleRun : Dom :=
  match
    runPipeline sampleLower sampleSin sampleDigits
      (usedPage (codes "Hi there!"))
  with
  | Some dom => dom
  | None => blankPage []
  end.

Definition sampleRendered : Dom :=
  match
    renderMatrix sampleDigits sampleTokens sampleMatrix (blankPage [])
  with
  | Some dom => dom
  | None => blankPage []
  end.

(** The closed unit interval, where the values of an embedding lie, and the
    range of a sine. *)
Definition inUnit (v : float) : Prop :=
  (0 <=? v)%float = true /\ (v <=? 1)%float = true.

Definition inSinRange (s : float) : Prop :=
  (-1 <=? s)%float = true /\ (s <=? 1)%float = true.

(** The number with two decimals [k / 100]. *)
Definition centi (k : Z) : float := (ofZ k / 100)%float.

Definition SFnonneg (x : spec_float) : Prop :=
  match x with
  | S754_zero false | S754_finite false _ _ => True
  | _ => False
  end.

(** * Properties *)

(** ** Binary64 rounding

    The upper bound that the rounding of [SpecFloat] keeps: an exact value
    below a representable number rounds to a number below it. *)

Lemma digits2_size (p : positive) : digits2_pos p = Pos.size p.
Proof. induction p; simpl; congruence. Qed.

Lemma digits2_bounds (p : positive) :
  2 ^ (Z.pos (digits2_pos p) - 1) <= Z.pos p < 2 ^ Z.pos (digits2_pos p).
Proof.
  rewrite digits2_size.
  pose proof (Pos.size_gt p) as Hgt. pose proof (Pos.size_le p) as Hle.
  apply Pos2Z.pos_lt_pos in Hgt. apply Pos2Z.pos_le_pos in Hle.
  rewrite Pos2Z.inj_pow in Hgt, Hle.
  change (Z.pos p~0) with (2 * Z.pos p) in Hle.
  replace (Z.pos (Pos.size p)) with ((Z.pos (Pos.size p) - 1) + 1) in Hle at 1 by lia.
  rewrite Z.pow_add_r in Hle by lia.
  change (2 ^ 1) with 2 in Hle. lia.
Qed.

Lemma fexp_eq (e : Z) : fexp prec emax e = Z.max (e - 53) (-1074).
Proof. reflexivity. Qed.

Lemma iter_pos_nat {A : Type} (f : A -> A) (p : positive) (x : A) :
  iter_pos f p x = Nat.iter (Pos.to_nat p) f x.
Proof.
  revert x. induction p as [ p IH | p IH | ]; intros x.
  - change (iter_pos f p~1 x) with (iter_pos f p (iter_pos f p (f x))).
    rewrite !IH. rewrite Pos2Nat.inj_xI.
    rewrite <- Nat.iter_add. rewrite <- Nat.iter_succ_r.
    f_equal. lia.
  - change (iter_pos f p~0 x) with (iter_pos f p (iter_pos f p x)).
    rewrite !IH. rewrite Pos2Nat.inj_xO.
    rewrite <- Nat.iter_add. f_equal. lia.
  - reflexivity.
Qed.

Lemma shr_1_spec (m : Z) (r s : bool) :
  0 <= m ->
  shr_1 (Build_shr_record m r s) = Build_shr_record (m / 2) (Z.odd m) (r || s).
Proof.
  intros H. rewrite <- Z.div2_div.
  destruct m as [ | [ p | p | ] | p ]; try reflexivity; lia.
Qed.

(** [n] right shifts of an exact mantissa: the quotient by [2^n], and the
    round and sticky bits are clear when nothing was shifted out. *)
Lemma shr_iter_spec (m : Z) (n : nat) :
  0 <= m ->
  exists r s,
    Nat.iter n shr_1 (Build_shr_record m false false)
    = Build_shr_record (m / 2 ^ Z.of_nat n) r s
    /\ (m mod 2 ^ Z.of_nat n = 0 -> r = false /\ s = false).
Proof.
  intros Hm. induction n as [ | n [r [s [IH Hex]]] ].
  - exists false, false. simpl. rewrite Z.div_1_r. auto.
  - exists (Z.odd (m / 2 ^ Z.of_nat n)), (r || s).
    simpl Nat.iter. rewrite IH.
    assert (Hp : 0 < 2 ^ Z.of_nat n) by (apply Z.pow_pos_nonneg; lia).
    rewrite shr_1_spec by (apply Z.div_pos; lia).
    rewrite Z.div_div by lia.
    replace (2 ^ Z.of_nat (S n)) with (2 ^ Z.of_nat n * 2)
      by (rewrite Nat2Z.inj_succ, Z.pow_succ_r by lia; lia).
    split; [ reflexivity | ].
    intros H0.
    assert (Hdiv : m = 2 * 2 ^ Z.of_nat n * (m / (2 ^ Z.of_nat n * 2))).
    { pose proof (Z.div_mod m (2 ^ Z.of_nat n * 2)) as D. lia. }
    assert (Hmod : m mod 2 ^ Z.of_nat n = 0).
    { rewrite Hdiv. rewrite (Z.mul_comm 2), <- Z.mul_assoc, Z.mul_comm.
      apply Z.mod_mul. lia. }
    destruct (Hex Hmod) as [-> ->].
    split; [ | reflexivity ].
    assert (Hq : m / 2 ^ Z.of_nat n = 2 * (m / (2 ^ Z.of_nat n * 2))).
    { rewrite Hdiv at 1.
      rewrite (Z.mul_comm 2 (2 ^ Z.of_nat n)), <- Z.mul_assoc, Z.mul_comm.
      rewrite Z.div_mul by lia. reflexivity. }
    rewrite Hq. rewrite Z.odd_mul. reflexivity.
Qed.

Lemma shr_spec (m e n : Z) :
  0 <= m -> 0 <= n ->
  exists r s,
    shr (Build_shr_record m false false) e n
    = (Build_shr_record (m / 2 ^ n) r s, e + n)
    /\ (m mod 2 ^ n = 0 -> r = false /\ s = false).
Proof.
  intros Hm Hn. destruct n as [ | p | p ]; [ | | lia ].
  - exists false, false. simpl. rewrite Z.div_1_r, Z.add_0_r. auto.
  - destruct (shr_iter_spec m (Pos.to_nat p) Hm) as [r [s [H1 H2]]].
    rewrite positive_nat_Z in H1, H2.
    exists r, s. unfold shr. rewrite iter_pos_nat, H1. auto.
Qed.

Lemma round_nearest_even_spec (m : Z) (r s : bool) :
  let m' := round_nearest_even m (loc_of_shr_record (Build_shr_record m r s)) in
  m <= m' <= m + 1 /\ (r = false -> s = false -> m' = m).
Proof.
  destruct r, s; simpl; try (split; [ lia | congruence ]).
  destruct (Z.even m); split; try lia; congruence.
Qed.

Lemma pow2_pos (n : Z) : 0 <= n -> 0 < 2 ^ n.
Proof. intros. apply Z.pow_pos_nonneg; lia. Qed.

Lemma digits2_of_pow2 (q : positive) (k : Z) :
  0 <= k -> 2 ^ k <= Z.pos q < 2 ^ (k + 1) -> Z.pos (digits2_pos q) = k + 1.
Proof.
  intros Hk [H1 H2]. destruct (digits2_bounds q) as [B1 B2].
  assert (A1 : k < Z.pos (digits2_pos q)).
  { apply (Z.pow_lt_mono_r_iff 2); lia. }
  assert (A2 : Z.pos (digits2_pos q) - 1 < k + 1).
  { apply (Z.pow_lt_mono_r_iff 2); lia. }
  lia.
Qed.

(** The computation of [binary_round_aux] on an exact mantissa whose
    exponent is not above the canonical one. *)
Lemma binary_round_aux_shape (s : bool) (mx : positive) (ex : Z) :
  let e1 := fexp prec emax (Z.pos (digits2_pos mx) + ex) in
  let n1 := e1 - ex in
  let R := binary_round_aux prec emax s (Z.pos mx) ex loc_Exact in
  0 <= n1 ->
  exists m2,
    Z.pos mx / 2 ^ n1 <= m2 <= Z.pos mx / 2 ^ n1 + 1
    /\ (Z.pos mx mod 2 ^ n1 = 0 -> m2 = Z.pos mx / 2 ^ n1)
    /\ m2 <= 2 ^ 53
    /\ ((m2 = 0 /\ R = S754_zero s)
        \/ (0 < m2 < 2 ^ 53
            /\ R = if e1 <=? 971 then S754_finite s (Z.to_pos m2) e1
                   else S754_infinity s)
        \/ (m2 = 2 ^ 53
            /\ R = if e1 + 1 <=? 971
                   then S754_finite s (Z.to_pos (2 ^ 52)) (e1 + 1)
                   else S754_infinity s)).
Proof.
  intros e1 n1 R Hn1.
  assert (He1 : -1074 <= e1) by (unfold e1; rewrite fexp_eq; lia).
  assert (Hd : Z.pos (digits2_pos mx) + ex - 53 <= e1)
    by (unfold e1; rewrite fexp_eq; lia).
  destruct (digits2_bounds mx) as [D1 D2].
  destruct (shr_spec (Z.pos mx) ex n1 ltac:(lia) Hn1) as [r [b [Hshr Hex]]].
  set (m1 := Z.pos mx / 2 ^ n1) in *.
  assert (Hp1 : 0 < 2 ^ n1) by (apply pow2_pos; lia).
  assert (Hm1 : 0 <= m1) by (apply Z.div_pos; lia).
  assert (Hm1u : m1 < 2 ^ 53).
  { apply Z.div_lt_upper_bound; [ lia | ].
    rewrite <- Z.pow_add_r by lia.
    eapply Z.lt_le_trans; [ exact D2 | ].
    apply Z.pow_le_mono_r; lia. }
  pose proof (round_nearest_even_spec m1 r b) as Hrne. cbv zeta in Hrne.
  set (m2 := round_nearest_even m1
               (loc_of_shr_record (Build_shr_record m1 r b))) in *.
  destruct Hrne as [Hm2 Hm2e].
  exists m2.
  split; [ exact Hm2 | ].
  split; [ intros H0; destruct (Hex H0) as [-> ->]; now apply Hm2e | ].
  split; [ lia | ].
  assert (HR : R = let '(mrs'', e'') :=
                     shr_fexp prec emax m2 e1 loc_Exact in
                   match shr_m mrs'' with
                   | Z0 => S754_zero s
                   | Zpos m =>
                       if e'' <=? emax - prec then S754_finite s m e''
                       else S754_infinity s
                   | Zneg _ => S754_nan
                   end).
  { unfold R, binary_round_aux, shr_fexp at 1.
    change (shr_record_of_loc (Z.pos mx) loc_Exact)
      with (Build_shr_record (Z.pos mx) false false).
    change (Zdigits2 (Z.pos mx)) with (Z.pos (digits2_pos mx)).
    fold e1. fold n1. rewrite Hshr.
    replace (ex + n1) with e1 by (unfold n1; lia).
    reflexivity. }
  change (emax - prec) with 971 in HR.
  unfold shr_fexp in HR.
  change (shr_record_of_loc m2 loc_Exact)
    with (Build_shr_record m2 false false) in HR.
  destruct (Z.eq_dec m2 0) as [E0 | N0].
  - left. split; [ exact E0 | ]. rewrite HR, E0.
    change (Zdigits2 0) with 0. rewrite fexp_eq.
    unfold shr.
    destruct (Z.max (0 + e1 - 53) (-1074) - e1) eqn:En; try lia; reflexivity.
  - right.
    destruct m2 as [ | q | q ]; [ congruence | | lia ].
    change (Zdigits2 (Z.pos q)) with (Z.pos (digits2_pos q)) in HR.
    destruct (digits2_bounds q) as [Q1 Q2].
    destruct (Z_lt_le_dec (Z.pos q) (2 ^ 53)) as [Hlt | Hge].
    + left. split; [ lia | ].
      assert (Hdq : Z.pos (digits2_pos q) <= 53).
      { assert (Z.pos (digits2_pos q) - 1 < 53); [ | lia ].
        apply (Z.pow_lt_mono_r_iff 2); lia. }
      rewrite HR, fexp_eq. unfold shr.
      destruct (Z.max (Z.pos (digits2_pos q) + e1 - 53) (-1074) - e1) eqn:En;
        try lia; reflexivity.
    + right. assert (Eq : Z.pos q = 2 ^ 53) by lia.
      split; [ exact Eq | ].
      assert (Hdq : Z.pos (digits2_pos q) = 53 + 1).
      { apply digits2_of_pow2; [ lia | ]. rewrite Eq.
        split; [ lia | ]. apply Z.pow_lt_mono_r; lia. }
      rewrite HR, fexp_eq, Hdq.
      replace (Z.max (53 + 1 + e1 - 53) (-1074) - e1) with 1 by lia.
      assert (Eq' : q = Z.to_pos (2 ^ 53)) by (rewrite <- Eq; reflexivity).
      rewrite Eq'. reflexivity.
Qed.

Lemma bounded_spec (m : positive) (e : Z) :
  bounded prec emax m e = true ->
  -1074 <= e <= 971 /\ Z.pos m < 2 ^ 53
  /\ e = fexp prec emax (Z.pos (digits2_pos m) + e).
Proof.
  unfold bounded, canonical_mantissa. intros H.
  apply andb_true_iff in H. destruct H as [H1 H2].
  apply Z.eqb_eq in H1. apply Z.leb_le in H2.
  change (emax - prec) with 971 in H2.
  pose proof H1 as H1'. rewrite fexp_eq in H1.
  destruct (digits2_bounds m) as [_ D].
  split; [ lia | ]. split; [ | now symmetry ].
  eapply Z.lt_le_trans; [ exact D | ].
  apply Z.pow_le_mono_r; lia.
Qed.

Lemma scaled_pos (m e : Z) : 0 < m -> -2200 <= e -> 0 < scaled m e.
Proof.
  intros. unfold scaled. apply Z.mul_pos_pos; [ lia | ].
  apply pow2_pos. lia.
Qed.

Lemma scaled_shift (m e n : Z) :
  0 <= n -> -2200 <= e -> scaled (m * 2 ^ n) e = scaled m (e + n).
Proof.
  intros. unfold scaled.
  replace (e + n + 2200) with (n + (e + 2200)) by lia.
  rewrite (Z.pow_add_r 2 n (e + 2200)) by lia. ring.
Qed.

Lemma scaled_lt_pow (m e k : Z) :
  0 <= k -> -2200 <= e -> m < 2 ^ k -> scaled m e < 2 ^ (k + e + 2200).
Proof.
  intros. unfold scaled.
  replace (k + e + 2200) with (k + (e + 2200)) by lia.
  rewrite (Z.pow_add_r 2 k (e + 2200)) by lia.
  apply Z.mul_lt_mono_pos_r; [ apply pow2_pos; lia | assumption ].
Qed.

Lemma scaled_ge_pow (m e k : Z) :
  0 <= k -> -2200 <= e -> 2 ^ k <= m -> 2 ^ (k + e + 2200) <= scaled m e.
Proof.
  intros. unfold scaled.
  replace (k + e + 2200) with (k + (e + 2200)) by lia.
  rewrite (Z.pow_add_r 2 k (e + 2200)) by lia.
  apply Z.mul_le_mono_nonneg_r; [ apply Z.lt_le_incl, pow2_pos; lia | assumption ].
Qed.

(** Rounding an exact value that a representable bound dominates gives zero
    or a finite number that the bound dominates too. *)
Lemma binary_round_aux_upper (s : bool) (mx : positive) (ex : Z)
    (mb : positive) (eb : Z) :
  -2200 <= ex ->
  ex <= fexp prec emax (Z.pos (digits2_pos mx) + ex) ->
  bounded prec emax mb eb = true ->
  scaled (Z.pos mx) ex <= scaled (Z.pos mb) eb ->
  let R := binary_round_aux prec emax s (Z.pos mx) ex loc_Exact in
  (R = S754_zero s
   /\ Z.pos mx / 2 ^ (fexp prec emax (Z.pos (digits2_pos mx) + ex) - ex) = 0)
  \/ exists m e,
       R = S754_finite s m e
       /\ scaled (Z.pos m) e <= scaled (Z.pos mb) eb.
Proof.
  intros Hex Hnorm Hb Hle R.
  destruct (bounded_spec mb eb Hb) as [Heb [Hmb _]].
  pose proof (binary_round_aux_shape s mx ex) as Hshape.
  cbv zeta in Hshape. fold R in Hshape.
  set (e1 := fexp prec emax (Z.pos (digits2_pos mx) + ex)) in *.
  set (n1 := e1 - ex) in *.
  destruct (Hshape ltac:(lia)) as [m2 [Hm2 [Hexact [Hm2u Hcases]]]].
  clear Hshape.
  set (m1 := Z.pos mx / 2 ^ n1) in *.
  assert (Hn1 : 0 <= n1) by lia.
  assert (He1 : -1074 <= e1 /\ Z.pos (digits2_pos mx) + ex - 53 <= e1)
    by (unfold e1; rewrite fexp_eq; lia).
  destruct (digits2_bounds mx) as [D1 D2].
  assert (Hp1 : 0 < 2 ^ n1) by (apply pow2_pos; lia).
  assert (Hm1 : 0 <= m1) by (apply Z.div_pos; lia).
  pose proof (Z.div_mod (Z.pos mx) (2 ^ n1) ltac:(lia)) as Hdm. fold m1 in Hdm.
  pose proof (Z.mod_pos_bound (Z.pos mx) (2 ^ n1) Hp1) as Hrem.
  set (rem := Z.pos mx mod 2 ^ n1) in *.
  (* the bound is below 2^1024 *)
  assert (HB : scaled (Z.pos mb) eb < 2 ^ (1024 + 2200)).
  { eapply Z.lt_le_trans; [ apply (scaled_lt_pow _ _ 53); lia | ].
    apply Z.pow_le_mono_r; lia. }
  (* the scaled unit of the rounded mantissa *)
  assert (HE1 : scaled m1 e1 <= scaled (Z.pos mx) ex).
  { unfold e1 at 1. fold e1. replace e1 with (ex + n1) at 1 by (unfold n1; lia).
    rewrite <- scaled_shift by lia. unfold scaled.
    apply Z.mul_le_mono_nonneg_r; [ apply Z.lt_le_incl, pow2_pos; lia | ].
    lia. }
  assert (Hgrid : scaled m2 e1 <= scaled (Z.pos mb) eb).
  { destruct (Z.eq_dec m2 m1) as [-> | Hne]; [ lia | ].
    assert (Hm2' : m2 = m1 + 1) by lia.
    assert (Hrem0 : 0 < rem).
    { destruct (Z.eq_dec rem 0) as [E | E]; [ | lia ].
      exfalso. apply Hne. apply Hexact. exact E. }
    assert (Hstrict : scaled m1 e1 < scaled (Z.pos mx) ex).
    { replace e1 with (ex + n1) by (unfold n1; lia).
      rewrite <- scaled_shift by lia. unfold scaled.
      apply Z.mul_lt_mono_pos_r; [ apply pow2_pos; lia | lia ]. }
    destruct (Z_le_gt_dec e1 eb) as [Hge | Hlt].
    - (* the bound is a multiple of the unit *)
      replace eb with (e1 + (eb - e1)) in Hle |- * by lia.
      rewrite <- scaled_shift in Hle |- * by lia.
      unfold scaled in *.
      assert (Hu : 0 < 2 ^ (e1 + 2200)) by (apply pow2_pos; lia).
      apply Z.mul_le_mono_nonneg_r; [ lia | ].
      assert (m1 < Z.pos mb * 2 ^ (eb - e1)); [ | lia ].
      apply (Z.mul_lt_mono_pos_r (2 ^ (e1 + 2200))); [ exact Hu | lia ].
    - (* the bound would be below the value *)
      exfalso.
      assert (He1' : e1 = Z.pos (digits2_pos mx) + ex - 53).
      { unfold e1. rewrite fexp_eq. unfold e1 in Hlt. rewrite fexp_eq in Hlt. lia. }
      assert (A : 2 ^ (Z.pos (digits2_pos mx) - 1 + ex + 2200)
                  <= scaled (Z.pos mx) ex).
      { apply scaled_ge_pow; lia. }
      assert (B : scaled (Z.pos mb) eb < 2 ^ (53 + eb + 2200)).
      { apply scaled_lt_pow; lia. }
      assert (C : 2 ^ (53 + eb + 2200)
                  <= 2 ^ (Z.pos (digits2_pos mx) - 1 + ex + 2200)).
      { apply Z.pow_le_mono_r; lia. }
      lia. }
  destruct Hcases as [[E0 HR] | [[Hrange HR] | [E53 HR]]].
  - left. split; [ exact HR | ]. fold m1. lia.
  - right. exists (Z.to_pos m2), e1.
    rewrite Z2Pos.id by lia. split; [ | exact Hgrid ].
    rewrite HR. destruct (Z.leb_spec e1 971) as [ | Hbig ]; [ reflexivity | ].
    exfalso.
    assert (He1' : e1 = Z.pos (digits2_pos mx) + ex - 53).
    { unfold e1. rewrite fexp_eq. unfold e1 in Hbig. rewrite fexp_eq in Hbig. lia. }
    assert (A : 2 ^ (Z.pos (digits2_pos mx) - 1 + ex + 2200)
                <= scaled (Z.pos mx) ex).
    { apply scaled_ge_pow; lia. }
    assert (C : 2 ^ (1024 + 2200)
                <= 2 ^ (Z.pos (digits2_pos mx) - 1 + ex + 2200)).
    { apply Z.pow_le_mono_r; lia. }
    lia.
  - right. exists (Z.to_pos (2 ^ 52)), (e1 + 1).
    assert (Hval : scaled (Z.pos (Z.to_pos (2 ^ 52))) (e1 + 1) = scaled m2 e1).
    { rewrite <- scaled_shift by lia. rewrite E53. reflexivity. }
    split; [ | rewrite Hval; exact Hgrid ].
    rewrite HR. destruct (Z.leb_spec (e1 + 1) 971) as [ | Hbig ]; [ reflexivity | ].
    exfalso.
    assert (A : 2 ^ (53 + e1 + 2200) <= scaled m2 e1).
    { apply scaled_ge_pow; lia. }
    assert (C : 2 ^ (1024 + 2200) <= 2 ^ (53 + e1 + 2200)).
    { apply Z.pow_le_mono_r; lia. }
    lia.
Qed.

Lemma bounded_normal (m : positive) (e : Z) :
  bounded prec emax m e = true -> -1074 < e -> 2 ^ 52 <= Z.pos m.
Proof.
  intros H He. destruct (bounded_spec m e H) as [_ [_ Hc]].
  rewrite fexp_eq in Hc. destruct (digits2_bounds m) as [D _].
  assert (Z.pos (digits2_pos m) = 53) as E by lia.
  rewrite E in D. exact D.
Qed.

(** On canonical mantissas the lexicographic comparison of [SFcompare] is
    the comparison of the values. *)
Lemma compare_bounded (m1 m2 : positive) (e1 e2 : Z) :
  bounded prec emax m1 e1 = true ->
  bounded prec emax m2 e2 = true ->
  match e1 ?= e2 with
  | Lt => Lt
  | Gt => Gt
  | Eq => Pos.compare_cont Eq m1 m2
  end = (scaled (Z.pos m1) e1 ?= scaled (Z.pos m2) e2).
Proof.
  intros H1 H2.
  destruct (bounded_spec m1 e1 H1) as [He1 [Hm1 _]].
  destruct (bounded_spec m2 e2 H2) as [He2 [Hm2 _]].
  destruct (Z.compare_spec e1 e2) as [E | L | G].
  - subst e2. change (Pos.compare_cont Eq m1 m2) with (Z.pos m1 ?= Z.pos m2).
    unfold scaled. symmetry.
    assert (0 < 2 ^ (e1 + 2200)) by (apply pow2_pos; lia).
    destruct (Z.compare_spec (Z.pos m1) (Z.pos m2)) as [E | L | G].
    + rewrite E. apply Z.compare_refl.
    + apply Z.compare_lt_iff. apply Z.mul_lt_mono_pos_r; assumption.
    + apply Z.compare_gt_iff. apply Z.mul_lt_mono_pos_r; assumption.
  - symmetry. apply Z.compare_lt_iff.
    pose proof (bounded_normal m2 e2 H2 ltac:(lia)) as N.
    pose proof (scaled_lt_pow (Z.pos m1) e1 53 ltac:(lia) ltac:(lia) Hm1).
    pose proof (scaled_ge_pow (Z.pos m2) e2 52 ltac:(lia) ltac:(lia) N).
    assert (2 ^ (53 + e1 + 2200) <= 2 ^ (52 + e2 + 2200))
      by (apply Z.pow_le_mono_r; lia).
    lia.
  - symmetry. apply Z.compare_gt_iff.
    pose proof (bounded_normal m1 e1 H1 ltac:(lia)) as N.
    pose proof (scaled_lt_pow (Z.pos m2) e2 53 ltac:(lia) ltac:(lia) Hm2).
    pose proof (scaled_ge_pow (Z.pos m1) e1 52 ltac:(lia) ltac:(lia) N).
    assert (2 ^ (53 + e2 + 2200) <= 2 ^ (52 + e1 + 2200))
      by (apply Z.pow_le_mono_r; lia).
    lia.
Qed.

(** Finite numbers compare as their values do. *)
Lemma SFcompare_key (x y : spec_float) :
  valid_binary x = true -> valid_binary y = true ->
  SFfinite x -> SFfinite y ->
  SFcompare x y = Some (SFkey x ?= SFkey y).
Proof.
  intros Vx Vy Fx Fy.
  destruct x as [ sx | sx | | sx mx ex ]; try contradiction;
    destruct y as [ sy | sy | | sy my ey ]; try contradiction;
    simpl in Vx, Vy.
  - reflexivity.
  - destruct (bounded_spec my ey Vy) as [He _].
    pose proof (scaled_pos (Z.pos my) ey ltac:(lia) ltac:(lia)) as P.
    unfold SFcompare, SFkey. destruct sy; f_equal; symmetry;
      [ apply Z.compare_gt_iff | apply Z.compare_lt_iff ]; lia.
  - destruct (bounded_spec mx ex Vx) as [He _].
    pose proof (scaled_pos (Z.pos mx) ex ltac:(lia) ltac:(lia)) as P.
    unfold SFcompare, SFkey. destruct sx; f_equal; symmetry;
      [ apply Z.compare_lt_iff | apply Z.compare_gt_iff ]; lia.
  - destruct (bounded_spec mx ex Vx) as [Hex _].
    destruct (bounded_spec my ey Vy) as [Hey _].
    pose proof (scaled_pos (Z.pos mx) ex ltac:(lia) ltac:(lia)) as Px.
    pose proof (scaled_pos (Z.pos my) ey ltac:(lia) ltac:(lia)) as Py.
    pose proof (compare_bounded mx my ex ey Vx Vy) as C.
    pose proof (compare_bounded my mx ey ex Vy Vx) as C'.
    unfold SFcompare, SFkey. destruct sx, sy; f_equal.
    + rewrite Z.compare_opp. rewrite <- C'.
      rewrite (Z.compare_antisym ex ey).
      destruct (ex ?= ey); simpl; try reflexivity.
      change (Pos.compare_cont Eq my mx) with (my ?= mx)%positive.
      change (Pos.compare_cont Eq mx my) with (mx ?= my)%positive.
      rewrite (Pos.compare_antisym mx my). reflexivity.
    + symmetry. apply Z.compare_lt_iff. lia.
    + symmetry. apply Z.compare_gt_iff. lia.
    + exact C.
Qed.

Lemma shl_align_spec (m : positive) (e e' : Z) :
  let '(mz, ez) := shl_align m e e' in
  ez = Z.min e e' /\ Z.pos mz = Z.pos m * 2 ^ (e - ez).
Proof.
  unfold shl_align. destruct (e' - e) as [ | d | d ] eqn:E.
  - replace (Z.min e e') with e by lia. rewrite Z.sub_diag. simpl. lia.
  - replace (Z.min e e') with e by lia. rewrite Z.sub_diag. simpl. lia.
  - replace (Z.min e e') with e' by lia.
    split; [ reflexivity | ].
    change (Pos.iter xO m d) with (shift_pos d m).
    rewrite shift_pos_correct, Z.pow_pos_fold.
    replace (e - e') with (Z.pos d) by lia. ring.
Qed.

Lemma digits2_shift (m : positive) (k : Z) (q : positive) :
  0 <= k -> Z.pos q = Z.pos m * 2 ^ k ->
  Z.pos (digits2_pos q) = Z.pos (digits2_pos m) + k.
Proof.
  intros Hk Hq. destruct (digits2_bounds m) as [D1 D2].
  assert (P : 0 < 2 ^ k) by (apply pow2_pos; lia).
  replace (Z.pos (digits2_pos m) + k) with (Z.pos (digits2_pos m) - 1 + k + 1)
    by lia.
  apply digits2_of_pow2; [ lia | ]. rewrite Hq.
  rewrite (Z.pow_add_r 2 (Z.pos (digits2_pos m) - 1) k) by lia.
  replace (Z.pos (digits2_pos m) - 1 + k + 1)
    with (Z.pos (digits2_pos m) + k) by lia.
  rewrite (Z.pow_add_r 2 (Z.pos (digits2_pos m)) k) by lia.
  split.
  - apply Z.mul_le_mono_nonneg_r; lia.
  - apply Z.mul_lt_mono_pos_r; lia.
Qed.

(** [binary_round] under a representable bound. *)
Lemma binary_round_upper (s : bool) (mx : positive) (ex : Z)
    (mb : positive) (eb : Z) :
  -2200 <= ex ->
  bounded prec emax mb eb = true ->
  scaled (Z.pos mx) ex <= scaled (Z.pos mb) eb ->
  let R := binary_round prec emax s mx ex in
  (R = S754_zero s
   /\ Z.pos (digits2_pos mx) + ex <= -1074)
  \/ exists m e,
       R = S754_finite s m e
       /\ scaled (Z.pos m) e <= scaled (Z.pos mb) eb.
Proof.
  intros Hex Hb Hle R. unfold R, binary_round.
  set (f := fexp prec emax (Z.pos (digits2_pos mx) + ex)).
  pose proof (shl_align_spec mx ex f) as Hal.
  destruct (shl_align mx ex f) as [mz ez]. destruct Hal as [Hez Hmz].
  assert (Hf : -1074 <= f /\ Z.pos (digits2_pos mx) + ex - 53 <= f
               /\ (f = -1074 \/ f = Z.pos (digits2_pos mx) + ex - 53))
    by (unfold f; rewrite fexp_eq; lia).
  assert (Hk : 0 <= ex - ez) by lia.
  pose proof (digits2_shift mx (ex - ez) mz Hk Hmz) as Hd.
  assert (Hsc : scaled (Z.pos mz) ez = scaled (Z.pos mx) ex).
  { rewrite Hmz. rewrite scaled_shift by lia. f_equal. lia. }
  assert (Hfz : fexp prec emax (Z.pos (digits2_pos mz) + ez) = f).
  { unfold f. f_equal. lia. }
  destruct (binary_round_aux_upper s mz ez mb eb) as [[HR Hq] | HR].
  - lia.
  - rewrite Hfz. lia.
  - exact Hb.
  - rewrite Hsc. exact Hle.
  - left. split; [ exact HR | ].
    rewrite Hfz in Hq.
    destruct (digits2_bounds mz) as [Dz _].
    destruct (Z_lt_le_dec (f - ez) (Z.pos (digits2_pos mz))) as [Hlt | Hge].
    + exfalso.
      assert (P : 0 < 2 ^ (f - ez)) by (apply pow2_pos; lia).
      assert (2 ^ (f - ez) <= Z.pos mz).
      { eapply Z.le_trans; [ | exact Dz ]. apply Z.pow_le_mono_r; lia. }
      assert (1 <= Z.pos mz / 2 ^ (f - ez)).
      { apply Z.div_le_lower_bound; lia. }
      lia.
    + lia.
  - right. exact HR.
Qed.

(** [binary_normalize] of an integer whose size a representable bound
    dominates; the sign of the result is the sign of the integer. *)
Lemma binary_normalize_upper (z ez : Z) (mb : positive) (eb : Z) :
  -1074 <= ez ->
  bounded prec emax mb eb = true ->
  scaled (Z.abs z) ez <= scaled (Z.pos mb) eb ->
  let R := binary_normalize prec emax z ez false in
  (z = 0 /\ R = S754_zero false)
  \/ exists m e,
       R = S754_finite (z <? 0) m e
       /\ scaled (Z.pos m) e <= scaled (Z.pos mb) eb.
Proof.
  intros Hez Hb Hle R. unfold R, binary_normalize.
  destruct z as [ | p | p ].
  - left. auto.
  - right. change (Z.pos p <? 0) with false.
    destruct (binary_round_upper false p ez mb eb ltac:(lia) Hb Hle)
      as [[_ Hd] | HR]; [ | exact HR ].
    pose proof (Pos2Z.is_pos (digits2_pos p)). lia.
  - right. change (Z.neg p <? 0) with true.
    destruct (binary_round_upper true p ez mb eb ltac:(lia) Hb Hle)
      as [[_ Hd] | HR]; [ | exact HR ].
    pose proof (Pos2Z.is_pos (digits2_pos p)). lia.
Qed.

(** A product with a normal number, under a representable bound. *)
Lemma SFmul_upper (sx sc : bool) (mx mc : positive) (ex ec : Z)
    (mb : positive) (eb : Z) :
  bounded prec emax mx ex = true ->
  bounded prec emax mc ec = true ->
  2 ^ 52 <= Z.pos mc ->
  bounded prec emax mb eb = true ->
  scaled (Z.pos mx * Z.pos mc) (ex + ec) <= scaled (Z.pos mb) eb ->
  let R := SFmul prec emax (S754_finite sx mx ex) (S754_finite sc mc ec) in
  R = S754_zero (xorb sx sc)
  \/ exists m e,
       R = S754_finite (xorb sx sc) m e
       /\ scaled (Z.pos m) e <= scaled (Z.pos mb) eb.
Proof.
  intros Hx Hc Hn Hb Hle R. unfold R, SFmul.
  destruct (bounded_spec mx ex Hx) as [Hex _].
  destruct (bounded_spec mc ec Hc) as [Hec _].
  destruct (binary_round_aux_upper (xorb sx sc) (mx * mc) (ex + ec) mb eb)
    as [[HR _] | HR].
  - lia.
  - rewrite fexp_eq.
    destruct (digits2_bounds (mx * mc)) as [_ D].
    rewrite Pos2Z.inj_mul in D.
    assert (2 ^ 52 < 2 ^ Z.pos (digits2_pos (mx * mc))) by nia.
    assert (52 < Z.pos (digits2_pos (mx * mc)))
      by (apply (Z.pow_lt_mono_r_iff 2); lia).
    lia.
  - exact Hb.
  - rewrite Pos2Z.inj_mul. exact Hle.
  - left. exact HR.
  - right. exact HR.
Qed.


(** ** Character classes and trimming *)

Lemma isWord_not_space (c : Z) : isWord c = true -> isSpace c = false.
Proof.
  unfold isWord, isSpace. intros H.
  repeat (apply orb_true_iff in H; destruct H as [H | H]);
    repeat (apply andb_true_iff in H; destruct H as [H ?]);
    repeat match goal with
      | h : (_ <=? _) = true |- _ => apply Z.leb_le in h
      | h : (_ =? _) = true |- _ => apply Z.eqb_eq in h
      end;
    repeat (apply orb_false_iff; split);
    try (apply Z.eqb_neq; lia);
    apply andb_false_iff;
    try (left; apply Z.leb_gt; lia); right; apply Z.leb_gt; lia.
Qed.

Lemma isWord_ascii (c : Z) : isWord c = true -> (c <? 128) = true.
Proof.
  unfold isWord. intros H. apply Z.ltb_lt.
  repeat (apply orb_true_iff in H; destruct H as [H | H]);
    repeat (apply andb_true_iff in H; destruct H as [H ?]);
    repeat match goal with
      | h : (_ <=? _) = true |- _ => apply Z.leb_le in h
      | h : (_ =? _) = true |- _ => apply Z.eqb_eq in h
      end; lia.
Qed.

Lemma isWord_asciiLower (c : Z) :
  isWord c = true -> isWord (asciiLower c) = true.
Proof.
  unfold asciiLower. intros H.
  destruct ((65 <=? c) && (c <=? 90)) eqn:E; [ | exact H ].
  apply andb_true_iff in E. destruct E as [E1 E2].
  apply Z.leb_le in E1. apply Z.leb_le in E2.
  unfold isWord.
  replace ((97 <=? c + 32) && (c + 32 <=? 122)) with true.
  - now rewrite orb_true_r.
  - symmetry. apply andb_true_iff. split; apply Z.leb_le; lia.
Qed.

Lemma allWord_noSpace (s : JsString.t) : allWord s -> noSpace s.
Proof.
  intros H. eapply Forall_impl; [ | exact H ].
  intros c. apply isWord_not_space.
Qed.

Lemma dropSpaces_noSpace (s : JsString.t) : noSpace s -> dropSpaces s = s.
Proof.
  intros H. destruct H as [ | c r Hc Hr ]; simpl; [ reflexivity | ].
  now rewrite Hc.
Qed.

Lemma dropSpaces_allSpace (s : JsString.t) : allSpace s -> dropSpaces s = [].
Proof.
  induction 1 as [ | c r Hc Hr IH ]; simpl; [ reflexivity | ].
  now rewrite Hc.
Qed.

Lemma trim_noSpace (s : JsString.t) : noSpace s -> trim s = s.
Proof.
  intros H. unfold trim.
  rewrite (dropSpaces_noSpace s H).
  rewrite dropSpaces_noSpace.
  - apply rev_involutive.
  - apply Forall_rev. exact H.
Qed.

Lemma trim_allSpace (s : JsString.t) : allSpace s -> trim s = [].
Proof.
  intros H. unfold trim. now rewrite (dropSpaces_allSpace s H).
Qed.

(** What [trim] leaves is empty exactly when the text is white space only. *)
Lemma dropSpaces_nil (s : JsString.t) : dropSpaces s = [] -> allSpace s.
Proof.
  induction s as [ | c r IH ]; simpl; intros H.
  - constructor.
  - destruct (isSpace c) eqn:E; [ | discriminate ].
    constructor; [ exact E | exact (IH H) ].
Qed.

Lemma trim_nil_iff (s : JsString.t) : trim s = [] <-> allSpace s.
Proof.
  split; [ | apply trim_allSpace ].
  unfold trim. intros H.
  assert (H1 : dropSpaces (rev (dropSpaces s)) = []).
  { rewrite <- (rev_involutive (dropSpaces _)). now rewrite H. }
  apply dropSpaces_nil in H1.
  assert (H2 : allSpace (dropSpaces s)).
  { rewrite <- (rev_involutive (dropSpaces s)). now apply Forall_rev. }
  clear H H1. induction s as [ | c r IH ]; simpl in *.
  - constructor.
  - destruct (isSpace c) eqn:E.
    + constructor; [ exact E | exact (IH H2) ].
    + inversion H2; congruence.
Qed.

(** ** Splitting *)

Lemma splitFrom_noSpace (piece s : JsString.t) :
  noSpace s -> splitFrom piece false s = [rev piece ++ s].
Proof.
  intros H. revert piece.
  induction H as [ | c r Hc Hr IH ]; intros piece; simpl.
  - now rewrite app_nil_r.
  - rewrite Hc, IH. simpl. now rewrite <- app_assoc.
Qed.

Lemma splitFrom_isolated (u piece : JsString.t) (gap : bool) :
  allWord piece ->
  Forall (fun p => allWord p \/ punctuationMark p)
    (splitFrom piece gap (isolatePunctuation u)).
Proof.
  revert piece gap.
  induction u as [ | c r IH ]; intros piece gap Hp; simpl.
  - constructor; [ | constructor ]. left. now apply Forall_rev.
  - unfold isolate.
    destruct (isWord c) eqn:Ew; simpl.
    + rewrite (isWord_not_space c Ew).
      apply IH. constructor; assumption.
    + destruct (isSpace c) eqn:Es; simpl; rewrite ?Es.
      * destruct gap.
        -- apply IH. constructor.
        -- constructor; [ left; now apply Forall_rev | ].
           apply IH. constructor.
      * assert (Hmark : punctuationMark [c]) by (exists c; auto).
        destruct gap.
        -- constructor; [ right; exact Hmark | ].
           apply IH. constructor.
        -- constructor; [ left; now apply Forall_rev | ].
           constructor; [ right; exact Hmark | ].
           apply IH. constructor.
Qed.

Section TokenizerFacts.

Variable unicodeLower : JsString.t -> Z -> JsString.t -> JsString.t.

Lemma lowerFrom_ascii (before s : JsString.t) :
  Forall (fun c => (c <? 128) = true) s ->
  lowerFrom unicodeLower before s = map asciiLower s.
Proof.
  intros H. revert before.
  induction H as [ | c r Hc Hr IH ]; intros before; simpl.
  - reflexivity.
  - now rewrite Hc, IH.
Qed.

Lemma toLowerCase_word (s : JsString.t) :
  allWord s ->
  toLowerCase unicodeLower s = map asciiLower s
  /\ allWord (toLowerCase unicodeLower s).
Proof.
  intros H.
  assert (E : toLowerCase unicodeLower s = map asciiLower s).
  { apply lowerFrom_ascii. eapply Forall_impl; [ | exact H ].
    intros c. apply isWord_ascii. }
  split; [ exact E | ]. rewrite E.
  apply Forall_map. eapply Forall_impl; [ | exact H ].
  intros c. apply isWord_asciiLower.
Qed.

Lemma isolatePunctuation_word (s : JsString.t) :
  allWord s -> isolatePunctuation s = s.
Proof.
  induction 1 as [ | c r Hc Hr IH ]; simpl; [ reflexivity | ].
  unfold isolate. rewrite Hc. simpl. now rewrite IH.
Qed.

Lemma tokenize_blank (text : JsString.t) :
  allSpace text -> tokenize unicodeLower text = [].
Proof.
  intros H. unfold tokenize. rewrite (trim_allSpace text H). simpl.
  now rewrite orb_true_r.
Qed.

(** C5. A non-empty string of word characters only (no white space, no
    punctuation) is tokenized into one token, its lower-cased self; the
    empty string and strings of white space only give no token. *)
Theorem tokenize_single_word :
  (forall s : JsString.t,
      s <> [] -> allWord s ->
      tokenize unicodeLower s = [toLowerCase unicodeLower s]
      /\ toLowerCase unicodeLower s = map asciiLower s)
  /\ tokenize unicodeLower [] = []
  /\ tokenize unicodeLower (codes "   ") = []
  /\ (forall s : JsString.t, allSpace s -> tokenize unicodeLower s = []).
Proof.
  split; [ | split; [ reflexivity | split; [ reflexivity | ] ] ].
  - intros s Hne Hw.
    destruct (toLowerCase_word s Hw) as [El Hl].
    split; [ | exact El ].
    unfold tokenize.
    rewrite (trim_noSpace s (allWord_noSpace s Hw)).
    destruct s as [ | c r ]; [ congruence | ]. simpl truthy. simpl orb.
    cbv iota.
    rewrite (isolatePunctuation_word _ Hl).
    unfold splitSpaces.
    rewrite (splitFrom_noSpace [] _ (allWord_noSpace _ Hl)). simpl.
    destruct (toLowerCase unicodeLower (c :: r)) eqn:E; [ | reflexivity ].
    rewrite El in E. discriminate.
  - apply tokenize_blank.
Qed.

(** C10. Every token is a non-empty run of word characters (letters,
    digits, underscore) or a single character that is neither a word
    character nor white space; no token holds white space, and underscores
    and digits stay inside their word. *)
Theorem tokenize_token_shape :
  (forall (text tok : JsString.t),
      In tok (tokenize unicodeLower text) ->
      (wordRun tok \/ punctuationMark tok) /\ noSpace tok)
  /\ isWord 95 = true
  /\ (forall c, 48 <= c <= 57 -> isWord c = true)
  /\ tokenize unicodeLower (codes "a_1 b2_") = [codes "a_1"; codes "b2_"].
Proof.
  split; [ | split; [ reflexivity | split; [ | reflexivity ] ] ].
  - intros text tok Hin. unfold tokenize in Hin.
    destruct (negb (truthy text) || negb (truthy (trim text)));
      [ contradiction | ].
    apply filter_In in Hin. destruct Hin as [Hin Hne].
    pose proof (splitFrom_isolated
                  (toLowerCase unicodeLower (trim text)) [] false
                  (Forall_nil _)) as Hall.
    rewrite Forall_forall in Hall. specialize (Hall tok Hin).
    destruct Hall as [Hw | Hm].
    + split.
      * left. split; [ | exact Hw ]. intros ->. discriminate.
      * now apply allWord_noSpace.
    + split; [ now right | ].
      destruct Hm as [c [-> [_ Hs]]]. constructor; [ exact Hs | constructor ].
  - intros c Hc. unfold isWord.
    replace ((48 <=? c) && (c <=? 57)) with true.
    + now rewrite orb_true_r.
    + symmetry. apply andb_true_iff. split; apply Z.leb_le; lia.
Qed.

End TokenizerFacts.

(** ** Identifier hasher *)

Lemma fold_hashStep_spec (token : JsString.t) (acc : Z) :
  fold_left hashStep token acc = hashSpec acc token.
Proof.
  revert acc. induction token as [ | c r IH ]; intros acc; simpl.
  - reflexivity.
  - now rewrite IH.
Qed.

Lemma hashSpec_range (token : JsString.t) (acc : Z) :
  0 <= acc < 2 ^ 32 -> 0 <= hashSpec acc token < 2 ^ 32.
Proof.
  revert acc. induction token as [ | c r IH ]; intros acc H; simpl.
  - exact H.
  - apply IH. apply Z.mod_pos_bound. reflexivity.
Qed.

(** The sum inside the loop stays below 2^53, so the double arithmetic of
    JavaScript computes it without rounding. *)
Lemma hashStep_exact (h c : Z) :
  0 <= h < 2 ^ 32 -> 0 <= c < 65536 ->
  0 <= h * 31 + c < 2 ^ 53 /\ 0 <= hashStep h c < 2 ^ 32.
Proof.
  intros Hh Hc. split.
  - change (2 ^ 32) with 4294967296 in Hh.
    change (2 ^ 53) with 9007199254740992. lia.
  - unfold hashStep, toUint32. apply Z.mod_pos_bound. reflexivity.
Qed.

Lemma tokenToId_refines (token : JsString.t) :
  tokenToId token = tokenToIdSpec token /\ 0 <= tokenToId token < 1024.
Proof.
  unfold tokenToId, tokenToIdSpec.
  rewrite fold_hashStep_spec.
  assert (H : 0 <= hashSpec 0 token < 2 ^ 32).
  { apply hashSpec_range. split; [ lia | reflexivity ]. }
  rewrite Z.rem_mod_nonneg by lia.
  split; [ reflexivity | ].
  apply Z.mod_pos_bound. lia.
Qed.

(** C1. [tokenToId] is the multiply-by-31 hash modulo 2^32 of the code
    units, taken in order from 0, reduced modulo 1024; the id lies in
    [0, 1024), and the id of ["a"] is 97. *)
Theorem tokenToId_hash :
  (forall token : JsString.t,
      tokenToId token = tokenToIdSpec token
      /\ 0 <= tokenToId token < 1024)
  /\ tokenToId (codes "a") = 97.
Proof.
  split; [ exact tokenToId_refines | reflexivity ].
Qed.

(** ** Embedder: shape *)

Lemma mapFrom_length {A B : Type} (f : A -> nat -> B) (l : list A) (i : nat) :
  length (mapFrom f i l) = length l.
Proof.
  revert i. induction l as [ | a r IH ]; intros i; simpl; [ reflexivity | ].
  now rewrite IH.
Qed.

Lemma mapFrom_In {A B : Type} (f : A -> nat -> B) (l : list A) (i : nat)
    (b : B) :
  In b (mapFrom f i l) -> exists a j, b = f a j.
Proof.
  revert i. induction l as [ | a r IH ]; intros i; simpl; [ tauto | ].
  intros [H | H]; [ now exists a, i | eauto ].
Qed.

Lemma mapFrom_nth_error {A B : Type} (f : A -> nat -> B) (l : list A)
    (i k : nat) :
  nth_error (mapFrom f i l) k
  = option_map (fun a => f a (i + k)%nat) (nth_error l k).
Proof.
  revert i k. induction l as [ | a r IH ]; intros i k.
  - destruct k; reflexivity.
  - destruct k; simpl.
    + now rewrite Nat.add_0_r.
    + rewrite IH. now rewrite Nat.add_succ_r.
Qed.

Section EmbedderFacts.

Variable Math_sin : float -> float.

Lemma embedLoop_seq (id : float) (n d : nat) (vec : list float) :
  embedLoop Math_sin id n d vec
  = vec ++ map (embedValue Math_sin id) (seq d n).
Proof.
  revert d vec. induction n as [ | n IH ]; intros d vec; simpl.
  - now rewrite app_nil_r.
  - rewrite IH. now rewrite <- app_assoc.
Qed.

Lemma embedToken_seq (id : float) (n : nat) :
  embedToken Math_sin id n = map (embedValue Math_sin id) (seq 0 n).
Proof. unfold embedToken. now rewrite embedLoop_seq. Qed.

Lemma embedToken_length (id : float) (n : nat) :
  length (embedToken Math_sin id n) = n.
Proof. now rewrite embedToken_seq, length_map, length_seq. Qed.

Lemma embedToken_nth (id : float) (n d : nat) :
  (d < n)%nat ->
  nth_error (embedToken Math_sin id n) d = Some (embedValue Math_sin id d).
Proof.
  intros H. rewrite embedToken_seq.
  rewrite nth_error_map, nth_error_seq.
  destruct (Nat.ltb_spec d n) as [ _ | Hge ]; [ reflexivity | lia ].
Qed.

End EmbedderFacts.

(** ** Renderer: the grid *)

Lemma collect_map_inv {A X : Type} (f : X -> option (list A)) (l : list X)
    (body : list A) :
  collect (map f l) = Some body ->
  body = concat (map (fun x => match f x with Some y => y | None => [] end) l)
  /\ Forall (fun x => f x <> None) l.
Proof.
  revert body. induction l as [ | x r IH ]; intros body; simpl.
  - intros [= <-]. split; [ reflexivity | constructor ].
  - destruct (f x) as [ y | ] eqn:E; [ | discriminate ].
    destruct (collect (map f r)) as [ b | ] eqn:Er; [ | discriminate ].
    intros [= <-]. destruct (IH b eq_refl) as [-> Hall].
    split; [ reflexivity | ].
    constructor; [ congruence | exact Hall ].
Qed.

Lemma collect_map_total {A X : Type} (f : X -> option (list A)) (l : list X) :
  Forall (fun x => f x <> None) l ->
  exists body, collect (map f l) = Some body.
Proof.
  induction 1 as [ | x r Hx Hr [b IH] ]; simpl.
  - now exists [].
  - destruct (f x) as [ y | ]; [ | congruence ].
    rewrite IH. now exists (y ++ b).
Qed.

Lemma nth_error_concat_blocks {A : Type} (g : nat -> list A)
    (k rows r j s : nat) :
  (forall i, (s <= i < s + rows)%nat -> length (g i) = k) ->
  (r < rows)%nat -> (j < k)%nat ->
  nth_error (concat (map g (seq s rows))) (r * k + j) = nth_error (g (s + r)%nat) j.
Proof.
  revert r s. induction rows as [ | rows IH ]; intros r s Hlen Hr Hj.
  - lia.
  - simpl. destruct r as [ | r ].
    + rewrite Nat.add_0_r. simpl.
      apply nth_error_app1. rewrite Hlen by lia. exact Hj.
    + rewrite nth_error_app2 by (rewrite Hlen by lia; simpl; lia).
      rewrite Hlen by lia.
      replace (S r * k + j - k)%nat with (r * k + j)%nat by (simpl; lia).
      rewrite IH; [ | intros i Hi; apply Hlen; lia | lia | exact Hj ].
      now rewrite Nat.add_succ_r.
Qed.

Lemma nth_error_after_header {A : Type} (x : A) (l1 l2 : list A) (n k : nat) :
  length l1 = n ->
  nth_error (x :: l1 ++ l2) (1 + n + k) = nth_error l2 k.
Proof.
  intros <-. simpl. rewrite nth_error_app2 by lia.
  f_equal. lia.
Qed.

Section RendererFacts.

Variable hostNumberToString : float -> JsString.t.

Lemma collect_cells (min range : float) (row : list float) (n i : nat)
    (cells : list Cell) :
  collect (map (cellStep hostNumberToString min range row) (seq i n)) = Some cells ->
  length cells = n
  /\ forall c, (c < n)%nat ->
       exists value, nth_error row (i + c) = Some value
                     /\ nth_error cells c = Some (valueCell hostNumberToString min range value).
Proof.
  revert i cells. induction n as [ | n IH ]; intros i cells; simpl.
  - intros [= <-]. split; [ reflexivity | intros c Hc; lia ].
  - unfold cellStep at 1.
    destruct (nth_error row i) as [ v | ] eqn:E; [ | discriminate ].
    destruct (collect _) as [ b | ] eqn:Eb; [ | discriminate ].
    intros [= <-]. destruct (IH (S i) b Eb) as [Hl Hc].
    split; [ simpl; now rewrite Hl | ].
    intros [ | c ] Hlt.
    + exists v. rewrite Nat.add_0_r. now split.
    + destruct (Hc c) as [w [H1 H2]]; [ lia | ].
      exists w. rewrite Nat.add_succ_r. now split.
Qed.

Lemma collect_cells_total (min range : float) (row : list float) (n i : nat) :
  (i + n <= length row)%nat ->
  exists cells, collect (map (cellStep hostNumberToString min range row) (seq i n)) = Some cells.
Proof.
  intros H. apply collect_map_total. apply Forall_forall.
  intros c Hc. apply in_seq in Hc. unfold cellStep.
  destruct (nth_error row c) eqn:E; [ discriminate | ].
  apply nth_error_None in E. lia.
Qed.

(** What a successful turn of the outer loop appends. *)
Lemma renderRow_inv (tokens : list JsString.t) (matrix : list (list float))
    (min range : float) (cols r : nat) (cells : list Cell) :
  renderRow hostNumberToString tokens matrix min range cols r = Some cells ->
  exists token row values,
    nth_error tokens r = Some token
    /\ nth_error matrix r = Some row
    /\ cells = createCell (tokenLabel token) (codes "token-label") :: values
    /\ length values = cols
    /\ forall c, (c < cols)%nat ->
         exists value, nth_error row c = Some value
                       /\ nth_error values c = Some (valueCell hostNumberToString min range value).
Proof.
  unfold renderRow.
  destruct (nth_error tokens r) as [ token | ]; [ | discriminate ].
  destruct (nth_error matrix r) as [ row | ]; [ | discriminate ].
  fold (cellStep hostNumberToString min range row).
  destruct (collect _) as [ values | ] eqn:E; [ | discriminate ].
  intros [= <-]. apply collect_cells in E. destruct E as [Hl Hc].
  exists token, row, values. repeat split; auto.
Qed.

Lemma renderRow_total (tokens : list JsString.t)
    (matrix : list (list float)) (min range : float) (cols r : nat) :
  (r < length tokens)%nat ->
  (exists row, nth_error matrix r = Some row /\ (cols <= length row)%nat) ->
  renderRow hostNumberToString tokens matrix min range cols r <> None.
Proof.
  intros Ht [row [Hrow Hlen]]. unfold renderRow.
  destruct (nth_error tokens r) eqn:E;
    [ | apply nth_error_None in E; lia ].
  rewrite Hrow.
  destruct (collect_cells_total min range row cols 0) as [cells Hc];
    [ simpl; exact Hlen | ].
  rewrite Hc. discriminate.
Qed.

(** [renderMatrix] does not throw on a non-empty matrix with a token for
    every row and no row shorter than the first. *)
Lemma renderMatrix_total (tokens : list JsString.t)
    (matrix : list (list float)) (dom : Dom) :
  matrix <> [] ->
  (length matrix <= length tokens)%nat ->
  Forall (fun row => (length (hd [] matrix) <= length row)%nat) matrix ->
  exists dom', renderMatrix hostNumberToString tokens matrix dom = Some dom'.
Proof.
  intros Hne Hlen Hrows. unfold renderMatrix.
  destruct matrix as [ | row0 rest ]; [ congruence | ].
  set (m := row0 :: rest) in *.
  destruct (collect_map_total
              (renderRow hostNumberToString tokens m (heatMin m)
                 (heatRange m) (length row0))
              (seq 0 (length m))) as [body Hb].
  - apply Forall_forall. intros r Hr. apply in_seq in Hr.
    apply renderRow_total; [ lia | ].
    destruct (nth_error m r) as [ row | ] eqn:E;
      [ | apply nth_error_None in E; lia ].
    exists row. split; [ reflexivity | ].
    rewrite Forall_forall in Hrows. apply (Hrows row).
    eapply nth_error_In. exact E.
  - rewrite Hb. eauto.
Qed.

(** The grid of a successful render: the label of row [r] comes after the
    corner, the [cols] headers and [r] rows of [1 + cols] cells; the cell
    of [matrix[r][c]] comes [1 + c] places later. *)
Lemma renderMatrix_cells (tokens : list JsString.t)
    (matrix : list (list float)) (dom dom' : Dom) (r : nat) :
  renderMatrix hostNumberToString tokens matrix dom = Some dom' ->
  (r < length matrix)%nat ->
  let cols := length (hd [] matrix) in
  exists token row,
    nth_error tokens r = Some token
    /\ nth_error matrix r = Some row
    /\ nth_error (matrixGrid_children dom') (1 + cols + r * (1 + cols))
       = Some (createCell (tokenLabel token) (codes "token-label"))
    /\ forall c, (c < cols)%nat ->
         exists value,
           nth_error row c = Some value
           /\ nth_error (matrixGrid_children dom')
                (1 + cols + r * (1 + cols) + 1 + c)
              = Some (valueCell hostNumberToString (heatMin matrix)
                        (heatRange matrix) value).
Proof.
  unfold renderMatrix.
  destruct matrix as [ | row0 rest ]; [ discriminate | ].
  set (m := row0 :: rest). simpl hd.
  set (step := renderRow hostNumberToString tokens m (heatMin m)
                 (heatRange m) (length row0)).
  destruct (collect (map step (seq 0 (length m)))) as [ body | ] eqn:Eb;
    [ | discriminate ].
  intros [= <-] Hr. simpl matrixGrid_children.
  apply collect_map_inv in Eb. destruct Eb as [-> Hall].
  rewrite Forall_forall in Hall.
  set (g := fun x => match step x with Some y => y | None => [] end).
  assert (Hrow : forall i, (i < length m)%nat ->
            exists token row values,
              nth_error tokens i = Some token
              /\ nth_error m i = Some row
              /\ g i = createCell (tokenLabel token) (codes "token-label")
                        :: values
              /\ length values = length row0
              /\ forall c, (c < length row0)%nat ->
                   exists value,
                     nth_error row c = Some value
                     /\ nth_error values c
                        = Some (valueCell hostNumberToString (heatMin m)
                                  (heatRange m) value)).
  { intros i Hi. unfold g.
    destruct (step i) as [ cells | ] eqn:E.
    - apply renderRow_inv in E.
      destruct E as [token [row [values [H1 [H2 [H3 [H4 H5]]]]]]].
      exists token, row, values. auto.
    - exfalso. apply (Hall i); [ apply in_seq; lia | exact E ]. }
  assert (Hlen : forall i, (0 <= i < 0 + length m)%nat ->
            length (g i) = S (length row0)).
  { intros i Hi. destruct (Hrow i) as [t [w [v [_ [_ [-> [Hv _]]]]]]];
      [ lia | ]. simpl. now rewrite Hv. }
  destruct (Hrow r Hr) as [token [row [values [H1 [H2 [H3 [H4 H5]]]]]]].
  exists token, row. split; [ exact H1 | split; [ exact H2 | ] ].
  assert (Hidx : forall j, (j < S (length row0))%nat ->
            nth_error
              (createCell [] (codes "corner dim-label token-label")
                 :: map (fun c => createCell (codes "d" ++ ofInt (Z.of_nat c))
                                    (codes "dim-label"))
                      (seq 0 (length row0))
                 ++ concat (map g (seq 0 (length m))))
              (1 + length row0 + r * (1 + length row0) + j)
            = nth_error (g r) j).
  { intros j Hj.
    rewrite <- Nat.add_assoc.
    rewrite nth_error_after_header
      by (rewrite length_map, length_seq; reflexivity).
    change (1 + length row0)%nat with (S (length row0)).
    rewrite (nth_error_concat_blocks g (S (length row0)) (length m) r j 0
               Hlen Hr Hj).
    reflexivity. }
  split.
  - rewrite <- (Nat.add_0_r (1 + length row0 + r * (1 + length row0))).
    rewrite Hidx by lia. now rewrite H3.
  - intros c Hc. destruct (H5 c Hc) as [value [Hv1 Hv2]].
    exists value. split; [ exact Hv1 | ].
    rewrite <- Nat.add_assoc. rewrite Hidx by lia.
    rewrite H3. simpl. exact Hv2.
Qed.

End RendererFacts.

Lemma tokenLabel_spec (token : JsString.t) :
  ((length token <= 10)%nat -> tokenLabel token = token)
  /\ ((10 < length token)%nat ->
      tokenLabel token = firstn 8 token ++ ellipsis
      /\ length (firstn 8 token) = 8%nat).
Proof.
  unfold tokenLabel. split; intros H.
  - destruct (Nat.ltb_spec 10 (length token)); [ lia | reflexivity ].
  - destruct (Nat.ltb_spec 10 (length token)); [ | lia ].
    split; [ reflexivity | ]. rewrite length_firstn. lia.
Qed.

(** C9. In a rendered grid the label of row [r] shows the token unchanged
    when it has at most 10 code units, and its first 8 code units followed
    by an ellipsis when it has more than 10. *)
Theorem row_label_truncation (hostNumberToString : float -> JsString.t)
    (tokens : list JsString.t) (matrix : list (list float)) (dom dom' : Dom)
    (r : nat) :
  renderMatrix hostNumberToString tokens matrix dom = Some dom' ->
  (r < length matrix)%nat ->
  exists token label,
    nth_error tokens r = Some token
    /\ nth_error (matrixGrid_children dom')
         (1 + length (hd [] matrix) + r * (1 + length (hd [] matrix)))
       = Some (createCell label (codes "token-label"))
    /\ ((length token <= 10)%nat -> label = token)
    /\ ((10 < length token)%nat ->
        label = firstn 8 token ++ ellipsis
        /\ length (firstn 8 token) = 8%nat).
Proof.
  intros Hrender Hr.
  destruct (renderMatrix_cells hostNumberToString tokens matrix dom dom' r
              Hrender Hr) as [token [row [Ht [_ [Hlabel _]]]]].
  exists token, (tokenLabel token).
  split; [ exact Ht | split; [ exact Hlabel | apply tokenLabel_spec ] ].
Qed.

(** ** The pipeline *)

Lemma renderMatrix_fields (hostNumberToString : float -> JsString.t)
    (tokens : list JsString.t) (matrix : list (list float)) (dom dom' : Dom) :
  renderMatrix hostNumberToString tokens matrix dom = Some dom' ->
  textInput_value dom' = textInput_value dom
  /\ tokensOut_textContent dom' = tokensOut_textContent dom
  /\ idsOut_textContent dom' = idsOut_textContent dom
  /\ matrixMeta_textContent dom' = matrixMeta_textContent dom
  /\ matrixContainer_hasMatrix dom' = matrixContainer_hasMatrix dom.
Proof.
  unfold renderMatrix. destruct matrix as [ | row0 rest ]; [ discriminate | ].
  destruct (collect _); [ | discriminate ].
  intros [= <-]. simpl. auto.
Qed.

(** The grid and its template depend on the tokens and the matrix only, not
    on what the page showed before. *)
Lemma renderMatrix_grid (hostNumberToString : float -> JsString.t)
    (tokens : list JsString.t) (matrix : list (list float))
    (dom1 dom2 dom1' dom2' : Dom) :
  renderMatrix hostNumberToString tokens matrix dom1 = Some dom1' ->
  renderMatrix hostNumberToString tokens matrix dom2 = Some dom2' ->
  matrixGrid_children dom1' = matrixGrid_children dom2'
  /\ matrixGrid_gridTemplateColumns dom1' = matrixGrid_gridTemplateColumns dom2'
  /\ matrixGrid_gridTemplateRows dom1' = matrixGrid_gridTemplateRows dom2'.
Proof.
  unfold renderMatrix. destruct matrix as [ | row0 rest ]; [ discriminate | ].
  destruct (collect _); [ | discriminate ].
  intros [= <-] [= <-]. simpl. auto.
Qed.

Section PipelineFacts.

Variable unicodeLower : JsString.t -> Z -> JsString.t -> JsString.t.
Variable Math_sin : float -> float.
Variable hostNumberToString : float -> JsString.t.

Lemma pipelineMatrix_length (dom : Dom) :
  length (pipelineMatrix unicodeLower Math_sin dom)
  = length (pipelineTokens unicodeLower dom).
Proof. unfold pipelineMatrix. apply mapFrom_length. Qed.

Lemma pipelineMatrix_rows (dom : Dom) :
  Forall (fun row => length row = dim)
    (pipelineMatrix unicodeLower Math_sin dom).
Proof.
  apply Forall_forall. intros row Hin. unfold pipelineMatrix in Hin.
  apply mapFrom_In in Hin. destruct Hin as [tok [i ->]].
  apply embedToken_length.
Qed.

Lemma pipelineIds_length (dom : Dom) :
  length (pipelineIds unicodeLower dom)
  = length (pipelineTokens unicodeLower dom).
Proof. unfold pipelineIds. apply length_map. Qed.

(** Row [r] of the matrix is the embedding of the id of token [r]: the
    lookup [ids[i]] never misses. *)
Lemma pipelineMatrix_nth (dom : Dom) (r : nat) (token : JsString.t) :
  nth_error (pipelineTokens unicodeLower dom) r = Some token ->
  nth_error (pipelineMatrix unicodeLower Math_sin dom) r
  = Some (embedToken Math_sin (ofZ (tokenToId token)) dim).
Proof.
  intros H. unfold pipelineMatrix. rewrite mapFrom_nth_error, H. simpl.
  unfold idAt, pipelineIds. rewrite nth_error_map, H. reflexivity.
Qed.

(** C6. The matrix has one row per token and every row has [dim = 8]
    columns; it is empty exactly when there is no token. *)
Theorem matrix_shape (dom : Dom) :
  let tokens := pipelineTokens unicodeLower dom in
  let matrix := pipelineMatrix unicodeLower Math_sin dom in
  length matrix = length tokens
  /\ Forall (fun row => length row = 8%nat) matrix
  /\ (matrix = [] <-> tokens = []).
Proof.
  intros tokens matrix.
  split; [ apply pipelineMatrix_length | ].
  split; [ apply pipelineMatrix_rows | ].
  pose proof (pipelineMatrix_length dom) as Hl.
  fold tokens in Hl. fold matrix in Hl.
  split; intros H; rewrite H in Hl; simpl in Hl.
  - destruct tokens; [ reflexivity | discriminate ].
  - destruct matrix; [ reflexivity | discriminate ].
Qed.

(** [runPipeline] never throws. *)
Lemma runPipeline_total (dom : Dom) :
  exists dom', runPipeline unicodeLower Math_sin hostNumberToString dom
               = Some dom'.
Proof.
  unfold runPipeline.
  pose proof (pipelineMatrix_length dom) as Hl.
  pose proof (pipelineMatrix_rows dom) as Hr.
  destruct (pipelineMatrix unicodeLower Math_sin dom) as [ | row0 rest ] eqn:E.
  - eauto.
  - apply renderMatrix_total.
    + discriminate.
    + rewrite Hl. lia.
    + inversion Hr as [ | ? ? H0 Hrest ]; subst. simpl hd.
      eapply Forall_impl; [ | exact Hr ]. simpl. intros row ->. lia.
Qed.

End PipelineFacts.

Section PipelineRuns.

Variable unicodeLower : JsString.t -> Z -> JsString.t -> JsString.t.
Variable Math_sin : float -> float.
Variable hostNumberToString : float -> JsString.t.

Lemma pipeline_reads_text_only (dom1 dom2 : Dom) :
  textInput_value dom1 = textInput_value dom2 ->
  pipelineTokens unicodeLower dom1 = pipelineTokens unicodeLower dom2
  /\ pipelineIds unicodeLower dom1 = pipelineIds unicodeLower dom2
  /\ pipelineMatrix unicodeLower Math_sin dom1
     = pipelineMatrix unicodeLower Math_sin dom2.
Proof.
  intros H.
  assert (Ht : pipelineTokens unicodeLower dom1
               = pipelineTokens unicodeLower dom2).
  { unfold pipelineTokens, pipelineText. now rewrite H. }
  assert (Hi : pipelineIds unicodeLower dom1 = pipelineIds unicodeLower dom2).
  { unfold pipelineIds. now rewrite Ht. }
  split; [ exact Ht | split; [ exact Hi | ] ].
  unfold pipelineMatrix. now rewrite Ht, Hi.
Qed.

(** What a run leaves on the page. *)
Lemma runPipeline_outputs (dom out : Dom) :
  runPipeline unicodeLower Math_sin hostNumberToString dom = Some out ->
  let tokens := pipelineTokens unicodeLower dom in
  let matrix := pipelineMatrix unicodeLower Math_sin dom in
  textInput_value out = textInput_value dom
  /\ tokensOut_textContent out = tokensSummary tokens
  /\ idsOut_textContent out = idsSummary (pipelineIds unicodeLower dom)
  /\ matrixMeta_textContent out = matrixSummary matrix
  /\ matrixContainer_hasMatrix out
     = match matrix with [] => false | _ :: _ => true end
  /\ (matrix = [] -> matrixGrid_children out = []).
Proof.
  unfold runPipeline.
  destruct (pipelineMatrix unicodeLower Math_sin dom) as [ | row0 rest ].
  - intros [= <-]. simpl. repeat split; reflexivity.
  - intros H. apply renderMatrix_fields in H. simpl in H.
    destruct H as [H1 [H2 [H3 [H4 H5]]]].
    simpl. repeat split; try assumption. discriminate.
Qed.

(** A run on the page a run has left changes nothing. *)
Lemma runPipeline_again (dom out : Dom) :
  runPipeline unicodeLower Math_sin hostNumberToString dom = Some out ->
  runPipeline unicodeLower Math_sin hostNumberToString out = Some out.
Proof.
  intros H.
  pose proof (runPipeline_outputs dom out H) as Hout. simpl in Hout.
  destruct Hout as [Hv _].
  destruct (pipeline_reads_text_only out dom Hv) as [Ht [Hi Hm]].
  revert H. unfold runPipeline. rewrite Ht, Hi, Hm.
  destruct (pipelineMatrix unicodeLower Math_sin dom) as [ | row0 rest ].
  - intros [= <-]. reflexivity.
  - unfold renderMatrix. destruct (collect _); [ | discriminate ].
    intros [= <-]. reflexivity.
Qed.

(** C7. Two runs on the same input text, whatever the page showed before
    each, compute the same tokens, ids and matrix, never throw, and leave
    the same summaries, marker and grid; running again on the page a run
    has left reproduces that page. *)
Theorem pipeline_deterministic (dom1 dom2 : Dom) :
  textInput_value dom1 = textInput_value dom2 ->
  pipelineTokens unicodeLower dom1 = pipelineTokens unicodeLower dom2
  /\ pipelineIds unicodeLower dom1 = pipelineIds unicodeLower dom2
  /\ pipelineMatrix unicodeLower Math_sin dom1
     = pipelineMatrix unicodeLower Math_sin dom2
  /\ exists out1 out2,
       runPipeline unicodeLower Math_sin hostNumberToString dom1 = Some out1
       /\ runPipeline unicodeLower Math_sin hostNumberToString dom2
          = Some out2
       /\ tokensOut_textContent out1 = tokensOut_textContent out2
       /\ idsOut_textContent out1 = idsOut_textContent out2
       /\ matrixMeta_textContent out1 = matrixMeta_textContent out2
       /\ matrixContainer_hasMatrix out1 = matrixContainer_hasMatrix out2
       /\ matrixGrid_children out1 = matrixGrid_children out2
       /\ runPipeline unicodeLower Math_sin hostNumberToString out1
          = Some out1.
Proof.
  intros H.
  destruct (pipeline_reads_text_only dom1 dom2 H) as [Ht [Hi Hm]].
  split; [ exact Ht | split; [ exact Hi | split; [ exact Hm | ] ] ].
  destruct (runPipeline_total unicodeLower Math_sin hostNumberToString dom1)
    as [out1 H1].
  destruct (runPipeline_total unicodeLower Math_sin hostNumberToString dom2)
    as [out2 H2].
  exists out1, out2.
  pose proof (runPipeline_outputs dom1 out1 H1) as O1.
  pose proof (runPipeline_outputs dom2 out2 H2) as O2.
  simpl in O1, O2. rewrite Ht, Hi, Hm in O1.
  destruct O1 as [_ [A1 [B1 [C1 [D1 E1]]]]].
  destruct O2 as [_ [A2 [B2 [C2 [D2 E2]]]]].
  repeat (split; [ congruence | ]).
  split; [ | eapply runPipeline_again; exact H1 ].
  revert H1 H2. unfold runPipeline. rewrite Ht, Hi, Hm.
  destruct (pipelineMatrix unicodeLower Math_sin dom2) as [ | row0 rest ].
  - intros [= <-] [= <-]. reflexivity.
  - intros G1 G2.
    now destruct (renderMatrix_grid _ _ _ _ _ _ _ G1 G2) as [Hc _].
Qed.

(** C8. On an empty or white-space-only input the run computes no token
    and no id, sets the three summaries to the placeholder, clears the grid
    and removes the marker; and no input makes a run throw. *)
Theorem blank_input_placeholders :
  (forall dom : Dom,
      allSpace (textInput_value dom) ->
      pipelineTokens unicodeLower dom = []
      /\ pipelineIds unicodeLower dom = []
      /\ pipelineMatrix unicodeLower Math_sin dom = []
      /\ runPipeline unicodeLower Math_sin hostNumberToString dom
         = Some (mkDom (textInput_value dom) emDash emDash emDash false
                   (matrixGrid_gridTemplateColumns dom)
                   (matrixGrid_gridTemplateRows dom) []))
  /\ (forall dom : Dom,
        exists out,
          runPipeline unicodeLower Math_sin hostNumberToString dom
          = Some out).
Proof.
  split; [ | apply runPipeline_total ].
  intros dom H.
  assert (Ht : pipelineTokens unicodeLower dom = []).
  { unfold pipelineTokens, pipelineText.
    rewrite (trim_allSpace _ H). reflexivity. }
  assert (Hi : pipelineIds unicodeLower dom = []).
  { unfold pipelineIds. now rewrite Ht. }
  assert (Hm : pipelineMatrix unicodeLower Math_sin dom = []).
  { unfold pipelineMatrix. now rewrite Ht. }
  repeat (split; [ assumption | ]).
  unfold runPipeline. rewrite Ht, Hi, Hm. reflexivity.
Qed.

(** C2. On the input ["Hi there!"] the tokens are ["hi"], ["there"] and
    ["!"], the ids are their hashes 257, 612 and 33, the matrix has 3 rows
    of 8 columns, and the summary reads ["3 × 8 (tokens × dimensions)"]. *)
Theorem hi_there_scenario (dom : Dom) :
  textInput_value dom = codes "Hi there!" ->
  pipelineTokens unicodeLower dom = [codes "hi"; codes "there"; codes "!"]
  /\ pipelineIds unicodeLower dom
     = map tokenToIdSpec [codes "hi"; codes "there"; codes "!"]
  /\ pipelineIds unicodeLower dom = [257; 612; 33]
  /\ length (pipelineMatrix unicodeLower Math_sin dom) = 3%nat
  /\ Forall (fun row => length row = 8%nat)
       (pipelineMatrix unicodeLower Math_sin dom)
  /\ exists out,
       runPipeline unicodeLower Math_sin hostNumberToString dom = Some out
       /\ tokensOut_textContent out = codes "hi, there, !"
       /\ idsOut_textContent out = codes "257, 612, 33"
       /\ matrixMeta_textContent out
          = codes "3 " ++ timesSign ++ codes " 8 (tokens " ++ timesSign
              ++ codes " dimensions)".
Proof.
  intros H.
  assert (Ht : pipelineTokens unicodeLower dom
               = [codes "hi"; codes "there"; codes "!"]).
  { unfold pipelineTokens, pipelineText. rewrite H. reflexivity. }
  assert (Hi : pipelineIds unicodeLower dom = [257; 612; 33]).
  { unfold pipelineIds. rewrite Ht. reflexivity. }
  pose proof (pipelineMatrix_length unicodeLower Math_sin dom) as Hl.
  rewrite Ht in Hl. simpl in Hl.
  split; [ exact Ht | split; [ rewrite Hi; reflexivity | ] ].
  split; [ exact Hi | split; [ exact Hl | ] ].
  split; [ apply pipelineMatrix_rows | ].
  destruct (runPipeline_total unicodeLower Math_sin hostNumberToString dom)
    as [out Hout].
  exists out. split; [ exact Hout | ].
  pose proof (runPipeline_outputs dom out Hout) as O. simpl in O.
  destruct O as [_ [A [B [C _]]]].
  rewrite Ht in A. rewrite Hi in B.
  split; [ exact A | split; [ exact B | ] ].
  rewrite C.
  destruct (pipelineMatrix unicodeLower Math_sin dom)
    as [ | r0 [ | r1 [ | r2 [ | r3 rest ] ] ] ]; try discriminate.
  reflexivity.
Qed.

End PipelineRuns.

(** ** The unit interval *)

Lemma scaled_mul (m mc e ec : Z) :
  -2200 <= e -> -2200 <= ec -> -2200 <= e + ec ->
  scaled (m * mc) (e + ec) * 2 ^ 2200 = scaled m e * scaled mc ec.
Proof.
  intros H1 H2 H3. unfold scaled.
  replace (m * mc * 2 ^ (e + ec + 2200) * 2 ^ 2200)
    with (m * mc * (2 ^ (e + ec + 2200) * 2 ^ 2200)) by ring.
  rewrite <- (Z.pow_add_r 2 (e + ec + 2200) 2200) by lia.
  replace (e + ec + 2200 + 2200) with ((e + 2200) + (ec + 2200)) by lia.
  rewrite (Z.pow_add_r 2 (e + 2200) (ec + 2200)) by lia. ring.
Qed.

Lemma scaled_one : scaled 1 0 = 2 ^ 2200.
Proof. unfold scaled. rewrite Z.mul_1_l. f_equal. Qed.

Lemma SFkey_abs_finite (s : bool) (m : positive) (e : Z) :
  -2200 <= e ->
  Z.abs (SFkey (S754_finite s m e)) = scaled (Z.pos m) e.
Proof.
  intros He. pose proof (scaled_pos (Z.pos m) e ltac:(lia) He).
  unfold SFkey. destruct s; lia.
Qed.

(** A product with a normal constant [c]: when [|x| * |c|] is below a
    representable bound, so is the rounded product, and the product of two
    numbers with a clear sign bit has a clear sign bit. *)
Lemma SFmul_const (x : spec_float) (sc : bool) (mc : positive) (ec : Z)
    (mb : positive) (eb : Z) :
  valid_binary x = true -> SFfinite x ->
  bounded prec emax mc ec = true -> 2 ^ 52 <= Z.pos mc ->
  bounded prec emax mb eb = true ->
  Z.abs (SFkey x) * scaled (Z.pos mc) ec <= scaled (Z.pos mb) eb * 2 ^ 2200 ->
  let R := SFmul prec emax x (S754_finite sc mc ec) in
  valid_binary R = true -> 
  SFfinite R
  /\ Z.abs (SFkey R) <= scaled (Z.pos mb) eb
  /\ (SFnonneg x -> sc = false -> SFnonneg R).
Proof.
  intros Vx Fx Hc Hn Hb Hle R VR.
  destruct (bounded_spec mb eb Hb) as [Heb _].
  pose proof (scaled_pos (Z.pos mb) eb ltac:(lia) ltac:(lia)) as PB.
  destruct x as [ sx | sx | | sx mx ex ]; try contradiction.
  - subst R. simpl. split; [ exact I | ]. split; [ lia | ].
    intros Hx ->. destruct sx; [ contradiction | exact I ].
  - simpl in Vx.
    destruct (bounded_spec mx ex Vx) as [Hex _].
    destruct (bounded_spec mc ec Hc) as [Hec _].
    rewrite SFkey_abs_finite in Hle by lia.
    assert (Hle' : scaled (Z.pos mx * Z.pos mc) (ex + ec)
                   <= scaled (Z.pos mb) eb).
    { assert (P : 0 < 2 ^ 2200) by (apply pow2_pos; lia).
      apply (Z.mul_le_mono_pos_r _ _ (2 ^ 2200) P).
      rewrite scaled_mul by lia. exact Hle. }
    destruct (SFmul_upper sx sc mx mc ex ec mb eb Vx Hc Hn Hb Hle')
      as [HR | [m [e [HR Hm]]]]; fold R in HR.
    + rewrite HR. simpl. split; [ exact I | ]. split; [ lia | ].
      intros Hx ->. destruct sx; [ contradiction | exact I ].
    + rewrite HR in VR |- *. simpl in VR.
      destruct (bounded_spec m e VR) as [He _].
      rewrite SFkey_abs_finite by lia.
      split; [ exact I | ]. split; [ exact Hm | ].
      intros Hx ->. destruct sx; [ contradiction | exact I ].
Qed.

Lemma scaled_add (a b e : Z) : scaled (a + b) e = scaled a e + scaled b e.
Proof. unfold scaled. ring. Qed.

Lemma scaled_opp (a e : Z) : scaled (- a) e = - scaled a e.
Proof. unfold scaled. ring. Qed.

Lemma scaled_abs (a e : Z) : -2200 <= e -> scaled (Z.abs a) e = Z.abs (scaled a e).
Proof.
  intros He. unfold scaled.
  rewrite Z.abs_mul. f_equal. symmetry. apply Z.abs_eq.
  apply Z.lt_le_incl, pow2_pos. lia.
Qed.

Lemma scaled_sign (a e : Z) : -2200 <= e -> (a <? 0) = (scaled a e <? 0).
Proof.
  intros He. assert (P : 0 < 2 ^ (e + 2200)) by (apply pow2_pos; lia).
  unfold scaled.
  destruct (Z.ltb_spec a 0), (Z.ltb_spec (a * 2 ^ (e + 2200)) 0);
    try reflexivity; nia.
Qed.

(** The mantissa of a finite number aligned on a lower exponent still
    stands for the number. *)
Lemma aligned_key (s : bool) (m : positive) (e e' : Z) :
  -2200 <= Z.min e e' ->
  scaled (cond_Zopp s (Z.pos (fst (shl_align m e (Z.min e e')))))
    (Z.min e e')
  = SFkey (S754_finite s m e).
Proof.
  intros He.
  pose proof (shl_align_spec m e (Z.min e e')) as H.
  destruct (shl_align m e (Z.min e e')) as [mz ez]. destruct H as [Hez Hmz].
  simpl fst. rewrite Hmz.
  replace (Z.min e (Z.min e e')) with (Z.min e e') in Hez by lia.
  subst ez.
  assert (E : scaled (Z.pos m * 2 ^ (e - Z.min e e')) (Z.min e e')
              = scaled (Z.pos m) e).
  { rewrite scaled_shift by lia. f_equal. lia. }
  unfold SFkey, cond_Zopp. destruct s; [ rewrite scaled_opp | ]; now rewrite E.
Qed.

(** The sum and the difference of two finite numbers: the exact result is
    rounded below any representable bound that dominates it, it is zero when
    exact zero and keeps the sign of the exact result otherwise. *)
Lemma SFadd_finite (sx sy : bool) (mx my : positive) (ex ey : Z)
    (mb : positive) (eb : Z) :
  bounded prec emax mx ex = true ->
  bounded prec emax my ey = true ->
  bounded prec emax mb eb = true ->
  let k := SFkey (S754_finite sx mx ex) + SFkey (S754_finite sy my ey) in
  Z.abs k <= scaled (Z.pos mb) eb ->
  let R := SFadd prec emax (S754_finite sx mx ex) (S754_finite sy my ey) in
  (k = 0 /\ R = S754_zero false)
  \/ (k <> 0
      /\ exists m e,
           R = S754_finite (k <? 0) m e
           /\ scaled (Z.pos m) e <= scaled (Z.pos mb) eb).
Proof.
  intros Vx Vy Hb k Hk R.
  destruct (bounded_spec mx ex Vx) as [Hex _].
  destruct (bounded_spec my ey Vy) as [Hey _].
  unfold R, SFadd.
  set (ez := Z.min ex ey).
  set (z := cond_Zopp sx (Z.pos (fst (shl_align mx ex ez)))
            + cond_Zopp sy (Z.pos (fst (shl_align my ey ez)))).
  assert (Hz : scaled z ez = k).
  { unfold z. rewrite scaled_add. unfold ez.
    rewrite (aligned_key sx mx ex ey) by lia.
    rewrite (Z.min_comm ex ey).
    rewrite (aligned_key sy my ey ex) by lia. reflexivity. }
  assert (Habs : scaled (Z.abs z) ez <= scaled (Z.pos mb) eb).
  { rewrite scaled_abs by (unfold ez; lia). now rewrite Hz. }
  destruct (binary_normalize_upper z ez mb eb ltac:(unfold ez; lia) Hb Habs)
    as [[Hz0 HR] | [m [e [HR Hm]]]].
  - left. split; [ | exact HR ]. rewrite <- Hz, Hz0. reflexivity.
  - right.
    assert (Hsign : (z <? 0) = (k <? 0)).
    { rewrite <- Hz. apply scaled_sign. unfold ez. lia. }
    rewrite Hsign in HR. split; [ | now exists m, e ].
    intros Hk0. rewrite <- Hz in Hk0.
    assert (Hz0 : z = 0).
    { unfold scaled in Hk0. apply Z.mul_eq_0 in Hk0.
      destruct Hk0 as [ | Hp ]; [ assumption | ].
      pose proof (pow2_pos (ez + 2200) ltac:(unfold ez; lia)). lia. }
    unfold binary_normalize in HR. rewrite Hz0 in HR. discriminate.
Qed.

Lemma SFsub_finite (sx sy : bool) (mx my : positive) (ex ey : Z)
    (mb : positive) (eb : Z) :
  bounded prec emax mx ex = true ->
  bounded prec emax my ey = true ->
  bounded prec emax mb eb = true ->
  let k := SFkey (S754_finite sx mx ex) - SFkey (S754_finite sy my ey) in
  Z.abs k <= scaled (Z.pos mb) eb ->
  let R := SFsub prec emax (S754_finite sx mx ex) (S754_finite sy my ey) in
  (k = 0 /\ R = S754_zero false)
  \/ (k <> 0
      /\ exists m e,
           R = S754_finite (k <? 0) m e
           /\ scaled (Z.pos m) e <= scaled (Z.pos mb) eb).
Proof.
  intros Vx Vy Hb k Hk R.
  destruct (bounded_spec mx ex Vx) as [Hex _].
  destruct (bounded_spec my ey Vy) as [Hey _].
  unfold R, SFsub.
  set (ez := Z.min ex ey).
  set (z := cond_Zopp sx (Z.pos (fst (shl_align mx ex ez)))
            - cond_Zopp sy (Z.pos (fst (shl_align my ey ez)))).
  assert (Hz : scaled z ez = k).
  { unfold z. unfold Z.sub. rewrite scaled_add, scaled_opp. unfold ez.
    rewrite (aligned_key sx mx ex ey) by lia.
    rewrite (Z.min_comm ex ey).
    rewrite (aligned_key sy my ey ex) by lia. reflexivity. }
  assert (Habs : scaled (Z.abs z) ez <= scaled (Z.pos mb) eb).
  { rewrite scaled_abs by (unfold ez; lia). now rewrite Hz. }
  destruct (binary_normalize_upper z ez mb eb ltac:(unfold ez; lia) Hb Habs)
    as [[Hz0 HR] | [m [e [HR Hm]]]].
  - left. split; [ | exact HR ]. rewrite <- Hz, Hz0. reflexivity.
  - right.
    assert (Hsign : (z <? 0) = (k <? 0)).
    { rewrite <- Hz. apply scaled_sign. unfold ez. lia. }
    rewrite Hsign in HR. split; [ | now exists m, e ].
    intros Hk0. rewrite <- Hz in Hk0.
    assert (Hz0 : z = 0).
    { unfold scaled in Hk0. apply Z.mul_eq_0 in Hk0.
      destruct Hk0 as [ | Hp ]; [ assumption | ].
      pose proof (pow2_pos (ez + 2200) ltac:(unfold ez; lia)). lia. }
    unfold binary_normalize in HR. rewrite Hz0 in HR. discriminate.
Qed.

(** ** Comparisons of numbers *)

Lemma compare_key (x y : float) :
  SFfinite (Prim2SF x) -> SFfinite (Prim2SF y) ->
  SFcompare (Prim2SF x) (Prim2SF y)
  = Some (SFkey (Prim2SF x) ?= SFkey (Prim2SF y)).
Proof.
  intros Fx Fy. apply SFcompare_key; auto using Prim2SF_valid.
Qed.

Lemma leb_key (x y : float) :
  SFfinite (Prim2SF x) -> SFfinite (Prim2SF y) ->
  (x <=? y)%float = (SFkey (Prim2SF x) <=? SFkey (Prim2SF y)).
Proof.
  intros Fx Fy. rewrite leb_spec. unfold SFleb.
  rewrite (compare_key x y Fx Fy). unfold Z.leb.
  now destruct (SFkey (Prim2SF x) ?= SFkey (Prim2SF y)).
Qed.

Lemma ltb_key (x y : float) :
  SFfinite (Prim2SF x) -> SFfinite (Prim2SF y) ->
  (x <? y)%float = (SFkey (Prim2SF x) <? SFkey (Prim2SF y)).
Proof.
  intros Fx Fy. rewrite ltb_spec. unfold SFltb.
  rewrite (compare_key x y Fx Fy). unfold Z.ltb.
  now destruct (SFkey (Prim2SF x) ?= SFkey (Prim2SF y)).
Qed.

Lemma eqb_key (x y : float) :
  SFfinite (Prim2SF x) -> SFfinite (Prim2SF y) ->
  (x =? y)%float = (SFkey (Prim2SF x) =? SFkey (Prim2SF y)).
Proof.
  intros Fx Fy. rewrite eqb_spec. unfold SFeqb.
  rewrite (compare_key x y Fx Fy). rewrite Z.eqb_compare.
  now destruct (SFkey (Prim2SF x) ?= SFkey (Prim2SF y)).
Qed.

(** A number between two finite numbers is finite. *)
Lemma finite_between (a v b : float) :
  SFfinite (Prim2SF a) -> SFfinite (Prim2SF b) ->
  (a <=? v)%float = true -> (v <=? b)%float = true ->
  SFfinite (Prim2SF v).
Proof.
  intros Fa Fb. rewrite !leb_spec. unfold SFleb.
  destruct (Prim2SF v) as [ s | s | | s m e ]; try (intros; exact I).
  - destruct (Prim2SF a) as [ sa | sa | | sa ma ea ]; try contradiction;
      destruct (Prim2SF b) as [ sb | sb | | sb mb eb ]; try contradiction;
      destruct s; simpl; discriminate.
  - destruct (Prim2SF a); simpl; discriminate.
Qed.

Lemma key_one : SFkey (Prim2SF 1) = scaled 1 0.
Proof.
  change (Prim2SF 1) with (S754_finite false 4503599627370496 (-52)).
  unfold SFkey. change 4503599627370496 with (1 * 2 ^ 52).
  rewrite scaled_shift by lia. reflexivity.
Qed.

Lemma inUnit_key (v : float) :
  inUnit v ->
  SFfinite (Prim2SF v) /\ 0 <= SFkey (Prim2SF v) <= scaled 1 0.
Proof.
  intros [H0 H1].
  assert (F0 : SFfinite (Prim2SF 0)) by exact I.
  assert (F1 : SFfinite (Prim2SF 1)) by exact I.
  pose proof (finite_between 0 v 1 F0 F1 H0 H1) as Fv.
  rewrite (leb_key 0 v F0 Fv) in H0. rewrite (leb_key v 1 Fv F1) in H1.
  rewrite key_one in H1.
  change (SFkey (Prim2SF 0)) with 0 in H0.
  apply Z.leb_le in H0. apply Z.leb_le in H1. auto.
Qed.

Lemma inSinRange_key (s : float) :
  inSinRange s ->
  SFfinite (Prim2SF s) /\ Z.abs (SFkey (Prim2SF s)) <= scaled 1 0.
Proof.
  intros [H0 H1].
  assert (F0 : SFfinite (Prim2SF (-1))) by exact I.
  assert (F1 : SFfinite (Prim2SF 1)) by exact I.
  pose proof (finite_between (-1) s 1 F0 F1 H0 H1) as Fv.
  rewrite (leb_key (-1) s F0 Fv) in H0. rewrite (leb_key s 1 Fv F1) in H1.
  rewrite key_one in H1.
  assert (K : SFkey (Prim2SF (-1)) = - scaled 1 0).
  { change (Prim2SF (-1)) with (S754_finite true 4503599627370496 (-52)).
    unfold SFkey. change 4503599627370496 with (1 * 2 ^ 52).
    rewrite scaled_shift by lia. reflexivity. }
  rewrite K in H0.
  apply Z.leb_le in H0. apply Z.leb_le in H1. split; [ exact Fv | lia ].
Qed.

(** ** Embedder: the values *)

Section EmbedderValues.

Local Open Scope float_scope.
Local Set Warnings "-inexact-float".

Variable Math_sin : float -> float.

Lemma half_scale (s : float) :
  inSinRange s ->
  SFfinite (Prim2SF (s * 0.5))
  /\ (Z.abs (SFkey (Prim2SF (s * 0.5))) <= scaled 1 (-1))%Z.
Proof.
  intros Hs. destruct (inSinRange_key s Hs) as [Fs Ks].
  pose proof (Prim2SF_valid (s * 0.5)) as VR.
  rewrite mul_spec in VR |- *.
  change (Prim2SF 0.5) with (S754_finite false 4503599627370496 (-53))
    in VR |- *.
  assert (B : scaled 4503599627370496 (-53) = scaled 1 (-1)).
  { change 4503599627370496%Z with (1 * 2 ^ 52)%Z.
    rewrite scaled_shift by lia. reflexivity. }
  assert (Hn : (2 ^ 52 <= 4503599627370496)%Z) by reflexivity.
  assert (Hle : (Z.abs (SFkey (Prim2SF s)) * scaled 4503599627370496 (-53)
                 <= scaled 4503599627370496 (-53) * 2 ^ 2200)%Z).
  { rewrite Z.mul_comm. apply Z.mul_le_mono_nonneg_l.
    - rewrite B. unfold scaled. apply Z.mul_nonneg_nonneg; [ lia | ].
      apply Z.lt_le_incl, pow2_pos. lia.
    - rewrite scaled_one in Ks. exact Ks. }
  destruct (SFmul_const (Prim2SF s) false 4503599627370496 (-53)
              4503599627370496 (-53) (Prim2SF_valid s) Fs eq_refl Hn eq_refl
              Hle VR) as [F [K _]].
  unfold SF64mul.
  split; [ exact F | ]. rewrite <- B. exact K.
Qed.

Lemma scaled_double (m e : Z) :
  (-2200 <= e)%Z -> (scaled m (e + 1) = 2 * scaled m e)%Z.
Proof.
  intros He. unfold scaled.
  replace (e + 1 + 2200)%Z with (Z.succ (e + 2200)) by lia.
  rewrite Z.pow_succ_r by lia. ring.
Qed.

Lemma add_half (a : float) :
  SFfinite (Prim2SF a) ->
  (Z.abs (SFkey (Prim2SF a)) <= scaled 1 (-1))%Z ->
  SFnonneg (Prim2SF (a + 0.5))
  /\ (SFkey (Prim2SF (a + 0.5)) <= scaled 1 0)%Z.
Proof.
  intros Fa Ka. pose proof (Prim2SF_valid a) as Va.
  rewrite add_spec.
  change (Prim2SF 0.5) with (S754_finite false 4503599627370496 (-53)).
  assert (B : scaled 4503599627370496 (-53) = scaled 1 (-1)).
  { change 4503599627370496%Z with (1 * 2 ^ 52)%Z.
    rewrite scaled_shift by lia. reflexivity. }
  assert (B1 : scaled 4503599627370496 (-52) = scaled 1 0).
  { change 4503599627370496%Z with (1 * 2 ^ 52)%Z.
    rewrite scaled_shift by lia. reflexivity. }
  pose proof (scaled_double 1 (-1) ltac:(lia)) as D. simpl Z.add in D.
  pose proof (scaled_pos 1 (-1) ltac:(lia) ltac:(lia)) as P.
  destruct (Prim2SF a) as [ sa | sa | | sa ma ea ]; try contradiction.
  - change (SF64add (S754_zero sa) (S754_finite false 4503599627370496 (-53)))
      with (S754_finite false 4503599627370496 (-53)).
    split; [ exact I | ]. unfold SFkey. rewrite B. lia.
  - simpl in Va.
    pose proof (SFadd_finite sa false ma 4503599627370496 ea (-53)
                  4503599627370496 (-52) Va eq_refl eq_refl) as H.
    cbv zeta in H.
    change (SFkey (S754_finite false 4503599627370496 (-53)))
      with (scaled 4503599627370496 (-53)) in H.
    rewrite B, B1 in H.
    set (ka := SFkey (S754_finite sa ma ea)) in *.
    pose proof (scaled_pos 1 0 ltac:(lia) ltac:(lia)) as P0.
    destruct (H ltac:(lia)) as [[_ HR] | [_ [m [e [HR Hm]]]]];
      unfold SF64add; rewrite HR.
    + split; [ exact I | ]. change (SFkey (S754_zero false)) with 0%Z. lia.
    + replace (ka + scaled 1 (-1) <? 0)%Z with false
        by (symmetry; apply Z.ltb_ge; lia).
      split; [ exact I | exact Hm ].
Qed.

Lemma key_hundred : SFkey (Prim2SF 100) = scaled 100 0.
Proof.
  change (Prim2SF 100) with (S754_finite false 7036874417766400 (-46)).
  unfold SFkey. change 7036874417766400%Z with (100 * 2 ^ 46)%Z.
  rewrite scaled_shift by lia. reflexivity.
Qed.

Lemma times_hundred (x : float) :
  SFnonneg (Prim2SF x) ->
  (SFkey (Prim2SF x) <= scaled 1 0)%Z ->
  SFnonneg (Prim2SF (x * 100))
  /\ (SFkey (Prim2SF (x * 100)) <= scaled 100 0)%Z.
Proof.
  intros Nx Kx.
  pose proof (Prim2SF_valid x) as Vx.
  pose proof (Prim2SF_valid (x * 100)) as VR.
  rewrite mul_spec in VR |- *.
  pose proof key_hundred as K100.
  change (Prim2SF 100) with (S754_finite false 7036874417766400 (-46))
    in VR, K100 |- *.
  unfold SFkey in K100.
  assert (Fx : SFfinite (Prim2SF x)).
  { destruct (Prim2SF x) as [ [ | ] | | | [ | ] ? ? ]; try contradiction; exact I. }
  assert (Kx0 : (0 <= SFkey (Prim2SF x))%Z).
  { destruct (Prim2SF x) as [ [ | ] | | | [ | ] m e ]; try contradiction.
    - simpl. lia.
    - simpl in Vx. destruct (bounded_spec m e Vx) as [He _].
      pose proof (scaled_pos (Z.pos m) e ltac:(lia) ltac:(lia)).
      unfold SFkey. lia. }
  assert (Hn : (2 ^ 52 <= 7036874417766400)%Z) by (vm_compute; discriminate).
  assert (Hle : (Z.abs (SFkey (Prim2SF x)) * scaled 7036874417766400 (-46)
                 <= scaled 7036874417766400 (-46) * 2 ^ 2200)%Z).
  { rewrite K100. rewrite Z.abs_eq by exact Kx0.
    rewrite scaled_one in Kx.
    pose proof (scaled_pos 100 0 ltac:(lia) ltac:(lia)) as P.
    rewrite Z.mul_comm. apply Z.mul_le_mono_nonneg_l; lia. }
  destruct (SFmul_const (Prim2SF x) false 7036874417766400 (-46)
              7036874417766400 (-46) Vx Fx eq_refl Hn eq_refl Hle VR)
    as [F [K N]].
  unfold SF64mul.
  split; [ apply N; [ exact Nx | reflexivity ] | ].
  rewrite K100 in K. lia.
Qed.

Lemma ofZ_zero : ofZ 0 = 0.
Proof. reflexivity. Qed.

(** [Math.round] of a number between 0 and 100 is one of the integers
    0, ..., 100. *)
Lemma round_hundred (y : float) :
  SFnonneg (Prim2SF y) ->
  (SFkey (Prim2SF y) <= scaled 100 0)%Z ->
  exists k, (0 <= k <= 100)%Z /\ Math_round y = ofZ k.
Proof.
  intros Ny Ky. pose proof (Prim2SF_valid y) as Vy.
  unfold Math_round.
  destruct (Prim2SF y) as [ [ | ] | | | [ | ] m e ] eqn:E; try contradiction.
  - exists 0%Z. split; [ lia | ].
    rewrite <- (SF2Prim_Prim2SF y), E. reflexivity.
  - simpl in Vy. destruct (bounded_spec m e Vy) as [He [Hm _]].
    unfold SFkey in Ky.
    destruct (Z.leb_spec 0 e) as [Hpos | Hneg].
    + exfalso.
      pose proof (bounded_normal m e Vy ltac:(lia)) as N.
      pose proof (scaled_ge_pow (Z.pos m) e 52 ltac:(lia) ltac:(lia) N) as A.
      assert (H7 : (100 < 2 ^ 7)%Z) by reflexivity.
      pose proof (scaled_lt_pow 100 0 7 ltac:(lia) ltac:(lia) H7) as B.
      assert (C : (2 ^ (7 + 0 + 2200) <= 2 ^ (52 + e + 2200))%Z)
        by (apply Z.pow_le_mono_r; lia).
      lia.
    + set (j := (- e)%Z).
      assert (Hj : (0 < j <= 1074)%Z) by (unfold j; lia).
      assert (Pj : (0 < 2 ^ j)%Z) by (apply pow2_pos; lia).
      assert (Hmj : (Z.pos m <= 100 * 2 ^ j)%Z).
      { assert (P : (0 < 2 ^ (e + 2200))%Z) by (apply pow2_pos; lia).
        unfold scaled in Ky.
        replace (0 + 2200)%Z with ((e + 2200) + j)%Z in Ky by (unfold j; lia).
        rewrite (Z.pow_add_r 2 (e + 2200) j) in Ky by lia.
        apply (Z.mul_le_mono_pos_r _ _ (2 ^ (e + 2200))%Z P).
        lia. }
      assert (Pj1 : (2 ^ (j + 1) = 2 * 2 ^ j)%Z).
      { rewrite Z.pow_add_r by lia. change (2 ^ 1)%Z with 2%Z. ring. }
      set (n := ((2 * Z.pos m + 2 ^ j) / 2 ^ (j + 1))%Z).
      assert (Hn : (0 <= n <= 100)%Z).
      { split.
        - apply Z.div_pos; lia.
        - assert (n < 101)%Z; [ | lia ].
          apply Z.div_lt_upper_bound; lia. }
      exists n. split; [ exact Hn | ].
      destruct (Z.eqb_spec n 0) as [-> | _]; reflexivity.
Qed.

Lemma centi_table :
  forallb (fun n => let v := centi (Z.of_nat n) in (0 <=? v) && (v <=? 1))
    (seq 0 101) = true.
Proof. vm_compute. reflexivity. Qed.

(** The numbers with two decimals from 0.00 to 1.00 lie in the unit
    interval. *)
Lemma centi_unit (k : Z) : (0 <= k <= 100)%Z -> inUnit (centi k).
Proof.
  intros Hk. pose proof centi_table as T.
  rewrite forallb_forall in T.
  specialize (T (Z.to_nat k)). cbv zeta in T.
  rewrite Z2Nat.id in T by lia.
  assert (Hin : In (Z.to_nat k) (seq 0 101)) by (apply in_seq; lia).
  apply T in Hin. apply andb_true_iff in Hin. exact Hin.
Qed.

(** The value of a dimension is one of 0.00, 0.01, ..., 1.00 as soon as the
    sine of its angle lies between -1 and 1. *)
Lemma embedValue_centi (id : float) (d : nat) :
  inSinRange (Math_sin (id * 0.1 + ofNat d * 0.5)) ->
  exists k, (0 <= k <= 100)%Z /\ embedValue Math_sin id d = centi k.
Proof.
  intros Hs. unfold embedValue.
  set (s := Math_sin (id * 0.1 + ofNat d * 0.5)) in *.
  destruct (half_scale s Hs) as [Fa Ka].
  destruct (add_half (s * 0.5) Fa Ka) as [Nx Kx].
  destruct (times_hundred (s * 0.5 + 0.5) Nx Kx) as [Ny Ky].
  destruct (round_hundred ((s * 0.5 + 0.5) * 100) Ny Ky) as [k [Hk Hr]].
  exists k. split; [ exact Hk | ]. rewrite Hr. reflexivity.
Qed.

(** C4. [embedToken(id, dim)] has [dim] entries; entry [d] is
    [round((sin(id*0.1 + d*0.5) * 0.5 + 0.5) * 100) / 100], a number with two
    decimals in the unit interval wherever the sine of the host lies between
    -1 and 1; and [embedToken(0, 1)] is [[0.5]] as [Math.sin(0)] is 0. *)
Theorem embedToken_values (id : float) (dim : nat) :
  length (embedToken Math_sin id dim) = dim
  /\ (forall d : nat,
         (d < dim)%nat ->
         nth_error (embedToken Math_sin id dim) d
         = Some (Math_round
                   ((Math_sin (id * 0.1 + ofNat d * 0.5) * 0.5 + 0.5) * 100)
                 / 100)
         /\ (inSinRange (Math_sin (id * 0.1 + ofNat d * 0.5)) ->
             exists v k,
               nth_error (embedToken Math_sin id dim) d = Some v
               /\ inUnit v /\ (0 <= k <= 100)%Z /\ v = centi k))
  /\ (Math_sin 0 = 0 -> embedToken Math_sin 0 1 = [0.5]).
Proof.
  split; [ apply embedToken_length | ]. split.
  - intros d Hd. split; [ exact (embedToken_nth Math_sin id dim d Hd) | ].
    intros Hs. destruct (embedValue_centi id d Hs) as [k [Hk Hv]].
    exists (embedValue Math_sin id d), k.
    split; [ exact (embedToken_nth Math_sin id dim d Hd) | ].
    split; [ rewrite Hv; now apply centi_unit | ].
    split; [ exact Hk | exact Hv ].
  - intros H0. unfold embedToken. simpl. unfold embedValue.
    change (0 * 0.1 + ofNat 0 * 0.5) with 0. rewrite H0.
    reflexivity.
Qed.

End EmbedderValues.

(** ** Heat map: minimum and maximum *)

Section HeatScale.

Local Open Scope float_scope.

Lemma finite_not_nan (x : float) : SFfinite (Prim2SF x) -> is_nan x = false.
Proof.
  intros F. unfold is_nan. rewrite (eqb_key x x F F).
  now rewrite Z.eqb_refl.
Qed.

Lemma finite_is_zero (x : float) :
  SFfinite (Prim2SF x) -> is_zero x = (SFkey (Prim2SF x) =? 0)%Z.
Proof.
  intros F. unfold is_zero. now rewrite (eqb_key x zero F I).
Qed.

Lemma finite_below_infinity (x : float) :
  SFfinite (Prim2SF x) -> (x <? infinity) = true /\ (neg_infinity <? x) = true.
Proof.
  intros F. rewrite !ltb_spec. unfold SFltb.
  change (Prim2SF infinity) with (S754_infinity false).
  change (Prim2SF neg_infinity) with (S754_infinity true).
  destruct (Prim2SF x) as [ s | s | | s m e ]; try contradiction;
    split; reflexivity.
Qed.

Lemma minStep_first (x : float) :
  SFfinite (Prim2SF x) -> minStep infinity x = x.
Proof.
  intros F. unfold minStep.
  change (is_nan infinity) with false. change (is_zero infinity) with false.
  rewrite (finite_not_nan x F).
  rewrite andb_false_r. simpl.
  now rewrite (proj1 (finite_below_infinity x F)).
Qed.

Lemma maxStep_first (x : float) :
  SFfinite (Prim2SF x) -> maxStep neg_infinity x = x.
Proof.
  intros F. unfold maxStep.
  change (is_nan neg_infinity) with false.
  change (is_zero neg_infinity) with false.
  rewrite (finite_not_nan x F).
  rewrite andb_false_r. simpl.
  now rewrite (proj2 (finite_below_infinity x F)).
Qed.

(** One step of [Math.min] on finite numbers keeps one of the two, the one
    with the smaller value. *)
Lemma minStep_finite (lowest x : float) :
  SFfinite (Prim2SF lowest) -> SFfinite (Prim2SF x) ->
  (minStep lowest x = lowest \/ minStep lowest x = x)
  /\ SFkey (Prim2SF (minStep lowest x))
     = Z.min (SFkey (Prim2SF lowest)) (SFkey (Prim2SF x)).
Proof.
  intros Fl Fx. unfold minStep.
  rewrite (finite_not_nan lowest Fl), (finite_not_nan x Fx). simpl.
  rewrite (finite_is_zero x Fx), (finite_is_zero lowest Fl).
  rewrite (ltb_key x lowest Fx Fl).
  destruct (Z.eqb_spec (SFkey (Prim2SF x)) 0) as [Ex | Nx];
    destruct (Z.eqb_spec (SFkey (Prim2SF lowest)) 0) as [El | Nl];
    simpl;
    try destruct (get_sign x);
    destruct (Z.ltb_spec (SFkey (Prim2SF x)) (SFkey (Prim2SF lowest)));
    (split; [ auto | lia ]).
Qed.

Lemma maxStep_finite (highest x : float) :
  SFfinite (Prim2SF highest) -> SFfinite (Prim2SF x) ->
  (maxStep highest x = highest \/ maxStep highest x = x)
  /\ SFkey (Prim2SF (maxStep highest x))
     = Z.max (SFkey (Prim2SF highest)) (SFkey (Prim2SF x)).
Proof.
  intros Fh Fx. unfold maxStep.
  rewrite (finite_not_nan highest Fh), (finite_not_nan x Fx). simpl.
  rewrite (finite_is_zero x Fx), (finite_is_zero highest Fh).
  rewrite (ltb_key highest x Fh Fx).
  destruct (Z.eqb_spec (SFkey (Prim2SF x)) 0) as [Ex | Nx];
    destruct (Z.eqb_spec (SFkey (Prim2SF highest)) 0) as [El | Nl];
    simpl;
    try destruct (negb (get_sign x));
    destruct (Z.ltb_spec (SFkey (Prim2SF highest)) (SFkey (Prim2SF x)));
    (split; [ auto | lia ]).
Qed.

Lemma fold_minStep_finite (l : list float) (acc : float) :
  SFfinite (Prim2SF acc) -> allFinite l ->
  let r := fold_left minStep l acc in
  (r = acc \/ In r l)
  /\ (SFkey (Prim2SF r) <= SFkey (Prim2SF acc))%Z
  /\ (forall v, In v l -> (SFkey (Prim2SF r) <= SFkey (Prim2SF v))%Z).
Proof.
  intros Fa Fl. revert acc Fa.
  induction Fl as [ | x l Fx Fl IH ]; intros acc Fa; simpl.
  - split; [ now left | ]. split; [ lia | tauto ].
  - destruct (minStep_finite acc x Fa Fx) as [Hor Hk].
    assert (Fs : SFfinite (Prim2SF (minStep acc x)))
      by (destruct Hor as [-> | ->]; assumption).
    destruct (IH (minStep acc x) Fs) as [H1 [H2 H3]].
    split; [ | split ].
    + destruct H1 as [H1 | H1]; [ | now right; right ].
      rewrite H1. destruct Hor as [-> | ->]; [ now left | right; now left ].
    + lia.
    + intros v [<- | Hv]; [ lia | now apply H3 ].
Qed.

Lemma fold_maxStep_finite (l : list float) (acc : float) :
  SFfinite (Prim2SF acc) -> allFinite l ->
  let r := fold_left maxStep l acc in
  (r = acc \/ In r l)
  /\ (SFkey (Prim2SF acc) <= SFkey (Prim2SF r))%Z
  /\ (forall v, In v l -> (SFkey (Prim2SF v) <= SFkey (Prim2SF r))%Z).
Proof.
  intros Fa Fl. revert acc Fa.
  induction Fl as [ | x l Fx Fl IH ]; intros acc Fa; simpl.
  - split; [ now left | ]. split; [ lia | tauto ].
  - destruct (maxStep_finite acc x Fa Fx) as [Hor Hk].
    assert (Fs : SFfinite (Prim2SF (maxStep acc x)))
      by (destruct Hor as [-> | ->]; assumption).
    destruct (IH (maxStep acc x) Fs) as [H1 [H2 H3]].
    split; [ | split ].
    + destruct H1 as [H1 | H1]; [ | now right; right ].
      rewrite H1. destruct Hor as [-> | ->]; [ now left | right; now left ].
    + lia.
    + intros v [<- | Hv]; [ lia | now apply H3 ].
Qed.

(** [Math.min] and [Math.max] of a non-empty list of finite numbers are
    entries of the list and bound the values of all of them. *)
Lemma Math_min_finite (l : list float) :
  l <> [] -> allFinite l ->
  In (Math_min l) l
  /\ forall v, In v l -> (SFkey (Prim2SF (Math_min l)) <= SFkey (Prim2SF v))%Z.
Proof.
  intros Hne Fl. destruct Fl as [ | x l Fx Fl ]; [ congruence | ].
  unfold Math_min. simpl fold_left. rewrite (minStep_first x Fx).
  destruct (fold_minStep_finite l x Fx Fl) as [H1 [H2 H3]].
  split.
  - destruct H1 as [-> | H1]; [ now left | now right ].
  - intros v [<- | Hv]; [ exact H2 | now apply H3 ].
Qed.

Lemma Math_max_finite (l : list float) :
  l <> [] -> allFinite l ->
  In (Math_max l) l
  /\ forall v, In v l -> (SFkey (Prim2SF v) <= SFkey (Prim2SF (Math_max l)))%Z.
Proof.
  intros Hne Fl. destruct Fl as [ | x l Fx Fl ]; [ congruence | ].
  unfold Math_max. simpl fold_left. rewrite (maxStep_first x Fx).
  destruct (fold_maxStep_finite l x Fx Fl) as [H1 [H2 H3]].
  split.
  - destruct H1 as [-> | H1]; [ now left | now right ].
  - intros v [<- | Hv]; [ exact H2 | now apply H3 ].
Qed.

End HeatScale.

(** ** Heat map: the colours *)

Section HeatColours.

Local Open Scope float_scope.

Variable hostNumberToString : float -> JsString.t.

Lemma colorAt_anchors :
  colorAt hostNumberToString 0 = codes "rgb(255,255,252)"
  /\ colorAt hostNumberToString (-0) = codes "rgb(255,255,252)"
  /\ colorAt hostNumberToString 1 = codes "rgb(125,211,252)".
Proof. repeat split; vm_compute; reflexivity. Qed.

Lemma key_eq_bounded (m1 m2 : positive) (e1 e2 : Z) :
  bounded prec emax m1 e1 = true -> bounded prec emax m2 e2 = true ->
  scaled (Z.pos m1) e1 = scaled (Z.pos m2) e2 -> m1 = m2 /\ e1 = e2.
Proof.
  intros V1 V2 H. pose proof (compare_bounded m1 m2 e1 e2 V1 V2) as C.
  rewrite H, Z.compare_refl in C.
  destruct (Z.compare_spec e1 e2) as [E | L | G]; try discriminate.
  split; [ | exact E ].
  apply Pos.compare_eq. exact C.
Qed.

(** Two numbers of the unit interval with the same value are the same
    number, or two zeros. *)
Lemma same_key_unit (a b : float) :
  inUnit a -> inUnit b ->
  SFkey (Prim2SF a) = SFkey (Prim2SF b) ->
  a = b \/ (exists sa sb, Prim2SF a = S754_zero sa /\ Prim2SF b = S754_zero sb).
Proof.
  intros Ua Ub. destruct (inUnit_key a Ua) as [Fa Ka].
  destruct (inUnit_key b Ub) as [Fb Kb].
  pose proof (Prim2SF_valid a) as Va. pose proof (Prim2SF_valid b) as Vb.
  destruct (Prim2SF a) as [ sa | sa | | sa ma ea ] eqn:Ea; try contradiction;
    destruct (Prim2SF b) as [ sb | sb | | sb mb eb ] eqn:Eb;
    try contradiction; simpl in Va, Vb; intros H.
  - right. eauto.
  - exfalso. destruct (bounded_spec mb eb Vb) as [He _].
    pose proof (scaled_pos (Z.pos mb) eb ltac:(lia) ltac:(lia)).
    unfold SFkey in H, Kb. destruct sb; lia.
  - exfalso. destruct (bounded_spec ma ea Va) as [He _].
    pose proof (scaled_pos (Z.pos ma) ea ltac:(lia) ltac:(lia)).
    unfold SFkey in H, Ka. destruct sa; lia.
  - left. destruct (bounded_spec ma ea Va) as [Hea _].
    destruct (bounded_spec mb eb Vb) as [Heb _].
    pose proof (scaled_pos (Z.pos ma) ea ltac:(lia) ltac:(lia)).
    pose proof (scaled_pos (Z.pos mb) eb ltac:(lia) ltac:(lia)).
    unfold SFkey in H, Ka, Kb.
    destruct sa; [ lia | ]. destruct sb; [ lia | ].
    destruct (key_eq_bounded ma mb ea eb Va Vb H) as [-> ->].
    apply Prim2SF_inj. now rewrite Ea, Eb.
Qed.

(** The difference of two numbers of the unit interval is a zero when they
    have the same value and a finite number that is not zero otherwise. *)
Lemma sub_unit (a b : float) :
  inUnit a -> inUnit b ->
  (SFkey (Prim2SF a) = SFkey (Prim2SF b) ->
   exists s, Prim2SF (a - b) = S754_zero s)
  /\ (SFkey (Prim2SF a) <> SFkey (Prim2SF b) ->
      exists s m e, Prim2SF (a - b) = S754_finite s m e).
Proof.
  intros Ua Ub. destruct (inUnit_key a Ua) as [Fa Ka].
  destruct (inUnit_key b Ub) as [Fb Kb].
  pose proof (Prim2SF_valid a) as Va. pose proof (Prim2SF_valid b) as Vb.
  rewrite sub_spec. unfold SF64sub.
  destruct (Prim2SF a) as [ sa | sa | | sa ma ea ]; try contradiction;
    destruct (Prim2SF b) as [ sb | sb | | sb mb eb ];
    try contradiction; simpl in Va, Vb.
  - split; [ | intros H; now contradiction H ].
    intros _. destruct sa, sb; simpl; eauto.
  - split; [ | intros _; simpl; eauto ].
    intros H. exfalso. destruct (bounded_spec mb eb Vb) as [He _].
    pose proof (scaled_pos (Z.pos mb) eb ltac:(lia) ltac:(lia)).
    unfold SFkey in H, Kb. destruct sb; lia.
  - split; [ | intros _; simpl; eauto ].
    intros H. exfalso. destruct (bounded_spec ma ea Va) as [He _].
    pose proof (scaled_pos (Z.pos ma) ea ltac:(lia) ltac:(lia)).
    unfold SFkey in H, Ka. destruct sa; lia.
  - assert (B1 : scaled 4503599627370496 (-52) = scaled 1 0).
    { change 4503599627370496%Z with (1 * 2 ^ 52)%Z.
      rewrite scaled_shift by lia. reflexivity. }
    pose proof (SFsub_finite sa sb ma mb ea eb 4503599627370496 (-52)
                  Va Vb eq_refl) as H.
    cbv zeta in H. rewrite B1 in H.
    destruct (H ltac:(lia)) as [[Hk HR] | [Hk [m [e [HR _]]]]]; rewrite HR.
    + split; [ eauto | intros N; exfalso; lia ].
    + split; [ intros E; exfalso; lia | eauto ].
Qed.

Lemma div_finite_self (r : float) (s : bool) (m : positive) (e : Z) :
  Prim2SF r = S754_finite s m e -> r / r = 1.
Proof.
  intros E. apply Prim2SF_inj. rewrite div_spec, E.
  unfold SF64div, SFdiv, SFdiv_core_binary.
  rewrite !Z.sub_diag.
  change (Z.min (fexp prec emax 0) 0) with (-53)%Z.
  change (0 - -53)%Z with 53%Z. cbv iota.
  rewrite Z.shiftl_mul_pow2 by lia.
  assert (D : Z.div_eucl (Z.pos m * 2 ^ 53) (Z.pos m) = (2 ^ 53, 0)%Z).
  { pose proof (Z.div_mul (2 ^ 53) (Z.pos m) ltac:(lia)) as Q.
    pose proof (Z.mod_mul (2 ^ 53) (Z.pos m) ltac:(lia)) as R.
    rewrite (Z.mul_comm (Z.pos m)).
    unfold Z.div in Q. unfold Z.modulo in R.
    destruct (Z.div_eucl (2 ^ 53 * Z.pos m) (Z.pos m)) as [q r'].
    now subst. }
  rewrite D.
  assert (L : new_location (Z.pos m) 0 = loc_Exact).
  { unfold new_location. destruct (Z.even (Z.pos m)); reflexivity. }
  rewrite L. rewrite xorb_nilpotent. reflexivity.
Qed.

Lemma div_zero_finite (d r : float) (sd sr : bool) (m : positive) (e : Z) :
  Prim2SF d = S754_zero sd -> Prim2SF r = S754_finite sr m e ->
  d / r = 0 \/ d / r = -0.
Proof.
  intros Ed Er.
  assert (E : Prim2SF (d / r) = S754_zero (xorb sd sr)).
  { rewrite div_spec, Ed, Er. reflexivity. }
  rewrite <- (SF2Prim_Prim2SF (d / r)), E.
  destruct (xorb sd sr); [ right | left ]; reflexivity.
Qed.

Lemma orElse_zero (r0 : float) (s : bool) :
  Prim2SF r0 = S754_zero s -> orElse r0 1 = 1.
Proof.
  intros E. unfold orElse.
  assert (F : SFfinite (Prim2SF r0)) by (rewrite E; exact I).
  rewrite (finite_not_nan r0 F), (finite_is_zero r0 F), E. reflexivity.
Qed.

Lemma orElse_finite (r0 : float) (s : bool) (m : positive) (e : Z) :
  Prim2SF r0 = S754_finite s m e -> orElse r0 1 = r0.
Proof.
  intros E. unfold orElse.
  assert (F : SFfinite (Prim2SF r0)) by (rewrite E; exact I).
  pose proof (Prim2SF_valid r0) as V. rewrite E in V. simpl in V.
  destruct (bounded_spec m e V) as [He _].
  pose proof (scaled_pos (Z.pos m) e ltac:(lia) ltac:(lia)) as P.
  rewrite (finite_not_nan r0 F), (finite_is_zero r0 F), E.
  replace (SFkey (S754_finite s m e) =? 0)%Z with false; [ reflexivity | ].
  symmetry. apply Z.eqb_neq. unfold SFkey. destruct s; lia.
Qed.

End HeatColours.

Section HeatAnchors.

Local Open Scope float_scope.

Variable hostNumberToString : float -> JsString.t.

(** The colours of the cells of a matrix with entries in the unit
    interval. *)
Lemma heatmap_colors (matrix : list (list float)) (value : float) :
  Forall (Forall inUnit) matrix ->
  In value (concat matrix) ->
  ((value =? heatMin matrix) = true ->
   heatmapColor hostNumberToString (heatMin matrix) (heatRange matrix) value
   = codes "rgb(255,255,252)")
  /\ ((value =? heatMax matrix) = true ->
      (heatMin matrix <? heatMax matrix) = true ->
      heatmapColor hostNumberToString (heatMin matrix) (heatRange matrix)
        value
      = codes "rgb(125,211,252)")
  /\ ((heatMin matrix =? heatMax matrix) = true ->
      heatRange matrix = 1
      /\ heatmapColor hostNumberToString (heatMin matrix) (heatRange matrix)
           value
         = codes "rgb(255,255,252)")
  /\ ((heatMin matrix <? heatMax matrix) = true
      \/ (heatMin matrix =? heatMax matrix) = true).
Proof.
  intros Hall Hin.
  assert (Uall : Forall inUnit (concat matrix)).
  { apply Forall_concat. exact Hall. }
  assert (Fall : allFinite (concat matrix)).
  { eapply Forall_impl; [ | exact Uall ]. intros v Hv.
    apply (inUnit_key v Hv). }
  assert (Hne : concat matrix <> []) by (intros E; rewrite E in Hin; contradiction).
  destruct (Math_min_finite (concat matrix) Hne Fall) as [Imin Lmin].
  destruct (Math_max_finite (concat matrix) Hne Fall) as [Imax Lmax].
  unfold heatRange. fold (heatMin matrix) in *. fold (heatMax matrix) in *.
  set (mn := heatMin matrix) in *. set (mx := heatMax matrix) in *.
  rewrite Forall_forall in Uall.
  pose proof (Uall mn Imin) as Umn. pose proof (Uall mx Imax) as Umx.
  pose proof (Uall value Hin) as Uv.
  destruct (inUnit_key mn Umn) as [Fmn Kmn].
  destruct (inUnit_key mx Umx) as [Fmx Kmx].
  destruct (inUnit_key value Uv) as [Fv Kv].
  rewrite (eqb_key value mn Fv Fmn), (eqb_key value mx Fv Fmx),
    (eqb_key mn mx Fmn Fmx), (ltb_key mn mx Fmn Fmx).
  pose proof (Lmin value Hin) as Lv. pose proof (Lmax value Hin) as Gv.
  destruct colorAt_anchors with (hostNumberToString := hostNumberToString)
    as [A0 [A0' A1]].
  (* the range *)
  assert (Hrange :
            (SFkey (Prim2SF mn) = SFkey (Prim2SF mx) -> orElse (mx - mn) 1 = 1)
            /\ (SFkey (Prim2SF mn) <> SFkey (Prim2SF mx) ->
                orElse (mx - mn) 1 = mx - mn
                /\ exists s m e, Prim2SF (mx - mn) = S754_finite s m e)).
  { destruct (sub_unit mx mn Umx Umn) as [Hz Hf]. split.
    - intros E. destruct (Hz (eq_sym E)) as [s Hs].
      exact (orElse_zero _ s Hs).
    - intros N. destruct (Hf (fun E => N (eq_sym E))) as [s [m [e Hs]]].
      split; [ exact (orElse_finite _ s m e Hs) | eauto ]. }
  destruct Hrange as [Req Rne].
  (* a cell that holds the minimum *)
  assert (Hmin : SFkey (Prim2SF value) = SFkey (Prim2SF mn) ->
                 heatmapColor hostNumberToString mn (orElse (mx - mn) 1) value
                 = codes "rgb(255,255,252)").
  { intros E. unfold heatmapColor. cbv zeta.
    destruct (proj1 (sub_unit value mn Uv Umn) E) as [sd Hd].
    assert (Ht : (value - mn) / orElse (mx - mn) 1 = 0
                 \/ (value - mn) / orElse (mx - mn) 1 = -0).
    { destruct (Z.eq_dec (SFkey (Prim2SF mn)) (SFkey (Prim2SF mx))) as [Q | N].
      - rewrite (Req Q).
        exact (div_zero_finite _ 1 sd false 4503599627370496 (-52) Hd eq_refl).
      - destruct (Rne N) as [-> [s [m [e Hs]]]].
        exact (div_zero_finite _ _ sd s m e Hd Hs). }
    destruct Ht as [-> | ->]; assumption. }
  split; [ | split; [ | split ] ].
  - intros E. apply Z.eqb_eq in E. now apply Hmin.
  - intros E L. apply Z.eqb_eq in E. apply Z.ltb_lt in L.
    destruct (Rne ltac:(lia)) as [-> [s [m [e Hs]]]].
    unfold heatmapColor. cbv zeta.
    destruct (same_key_unit value mx Uv Umx E) as [-> | [sa [sb [Ha Hb]]]].
    + rewrite (div_finite_self _ s m e Hs). exact A1.
    + exfalso. rewrite Hb in L. simpl in L. lia.
  - intros E. apply Z.eqb_eq in E. split; [ now apply Req | ].
    apply Hmin. lia.
  - destruct (Z.eq_dec (SFkey (Prim2SF mn)) (SFkey (Prim2SF mx))) as [Q | N].
    + right. now apply Z.eqb_eq.
    + left. apply Z.ltb_lt. pose proof (Lmin mx Imax). lia.
Qed.

End HeatAnchors.

Section HeatGrid.

Local Open Scope float_scope.

Variable hostNumberToString : float -> JsString.t.

(** C3, amended. In a rendered matrix with entries in the unit interval
    (those of an embedding) the cell of [matrix[r][c]] is painted
    [heatmapColor] of its value: the colour of [t = 0], [rgb(255,255,252)],
    when it holds the minimum; the colour of [t = 1], [rgb(125,211,252)],
    when it holds the maximum and the maximum is above the minimum; and when
    all values are equal the range is 1 and every cell, the one with the
    maximum too, has the colour of [t = 0]. *)
Theorem heatmap_anchor_cells (tokens : list JsString.t)
    (matrix : list (list float)) (dom dom' : Dom) (r c : nat) :
  Forall (Forall inUnit) matrix ->
  renderMatrix hostNumberToString tokens matrix dom = Some dom' ->
  (r < length matrix)%nat ->
  (c < length (hd [] matrix))%nat ->
  exists row value cell,
    nth_error matrix r = Some row
    /\ nth_error row c = Some value
    /\ nth_error (matrixGrid_children dom')
         (1 + length (hd [] matrix) + r * (1 + length (hd [] matrix)) + 1 + c)
       = Some cell
    /\ style_background cell
       = heatmapColor hostNumberToString (heatMin matrix) (heatRange matrix)
           value
    /\ ((value =? heatMin matrix) = true ->
        style_background cell = colorAt hostNumberToString 0)
    /\ ((value =? heatMax matrix) = true ->
        (heatMin matrix <? heatMax matrix) = true ->
        style_background cell = colorAt hostNumberToString 1)
    /\ ((heatMin matrix =? heatMax matrix) = true ->
        heatRange matrix = 1
        /\ style_background cell = colorAt hostNumberToString 0)
    /\ ((heatMin matrix <? heatMax matrix) = true
        \/ (heatMin matrix =? heatMax matrix) = true)
    /\ colorAt hostNumberToString 0 = codes "rgb(255,255,252)"
    /\ colorAt hostNumberToString 1 = codes "rgb(125,211,252)".
Proof.
  intros Hall Hrender Hr Hc.
  destruct (renderMatrix_cells hostNumberToString tokens matrix dom dom' r
              Hrender Hr) as [token [row [_ [Hrow [_ Hcells]]]]].
  destruct (Hcells c Hc) as [value [Hv Hcell]].
  exists row, value,
    (valueCell hostNumberToString (heatMin matrix) (heatRange matrix) value).
  assert (Hin : In value (concat matrix)).
  { apply in_concat. exists row.
    split; eapply nth_error_In; eassumption. }
  destruct (heatmap_colors hostNumberToString matrix value Hall Hin)
    as [H1 [H2 [H3 H4]]].
  destruct colorAt_anchors with (hostNumberToString := hostNumberToString)
    as [A0 [_ A1]].
  split; [ exact Hrow | ]. split; [ exact Hv | ]. split; [ exact Hcell | ].
  simpl style_background.
  split; [ reflexivity | ].
  split; [ intros E; rewrite A0; now apply H1 | ].
  split; [ intros E L; rewrite A1; now apply H2 | ].
  split; [ intros E; rewrite A0; now apply H3 | ].
  split; [ exact H4 | ]. split; assumption.
Qed.

End HeatGrid.

(** C3 as stated fails on the matrix with the single entry 0.5: the cell
    holds the maximum and is painted the colour of [t = 0]. *)
Lemma anchorsClaim_single_cell :
  ~ anchorsClaim sampleDigits [[0.5%float]].
Proof.
  intros H. destruct (H 0.5%float) as [_ Hmax]; [ now left | ].
  specialize (Hmax eq_refl). vm_compute in Hmax. discriminate.
Qed.

(** ** Runs: the matrix of a run lies in the unit interval *)

Section RunMatrix.

Local Open Scope float_scope.
Local Set Warnings "-inexact-float".

Variable unicodeLower : JsString.t -> Z -> JsString.t -> JsString.t.
Variable Math_sin : float -> float.

(** The sine of the host lies between -1 and 1 on the angles of a run:
    ids below 1024 and the eight dimensions. *)
Hypothesis Math_sin_range :
  forall (id : Z) (d : nat),
    (0 <= id < 1024)%Z -> (d < 8)%nat ->
    inSinRange (Math_sin (ofZ id * 0.1 + ofNat d * 0.5)).

Lemma pipelineMatrix_unit (dom : Dom) :
  Forall (Forall inUnit) (pipelineMatrix unicodeLower Math_sin dom).
Proof.
  apply Forall_forall. intros row Hin.
  apply In_nth_error in Hin. destruct Hin as [r Hr].
  assert (Hlt : (r < length (pipelineTokens unicodeLower dom))%nat).
  { rewrite <- (pipelineMatrix_length unicodeLower Math_sin dom).
    apply nth_error_Some. congruence. }
  destruct (nth_error (pipelineTokens unicodeLower dom) r) as [ token | ] eqn:Et;
    [ | apply nth_error_None in Et; lia ].
  rewrite (pipelineMatrix_nth unicodeLower Math_sin dom r token Et) in Hr.
  injection Hr as <-.
  rewrite embedToken_seq. apply Forall_map. apply Forall_forall.
  intros d Hd. apply in_seq in Hd.
  destruct (embedValue_centi Math_sin (ofZ (tokenToId token)) d) as [k [Hk ->]].
  - apply Math_sin_range; [ apply tokenToId_refines | unfold dim in Hd; lia ].
  - now apply centi_unit.
Qed.

End RunMatrix.

(** ** The theorems at concrete inputs *)

Lemma tokenize_single_word_witness :
  tokenize sampleLower (codes "Word_1")
  = [toLowerCase sampleLower (codes "Word_1")]
  /\ toLowerCase sampleLower (codes "Word_1")
     = map asciiLower (codes "Word_1").
Proof.
  apply (proj1 (tokenize_single_word sampleLower) (codes "Word_1")).
  - discriminate.
  - repeat constructor.
Defined.

Lemma tokenize_token_shape_witness :
  (wordRun (codes "there") \/ punctuationMark (codes "there"))
  /\ noSpace (codes "there").
Proof.
  apply (proj1 (tokenize_token_shape sampleLower) (codes "Hi there!")).
  vm_compute. right. left. reflexivity.
Defined.

Lemma hi_there_scenario_witness :
  pipelineTokens sampleLower (blankPage (codes "Hi there!"))
  = [codes "hi"; codes "there"; codes "!"]
  /\ pipelineIds sampleLower (blankPage (codes "Hi there!"))
     = map tokenToIdSpec [codes "hi"; codes "there"; codes "!"]
  /\ pipelineIds sampleLower (blankPage (codes "Hi there!")) = [257; 612; 33]
  /\ length (pipelineMatrix sampleLower sampleSin
               (blankPage (codes "Hi there!"))) = 3%nat
  /\ Forall (fun row => length row = 8%nat)
       (pipelineMatrix sampleLower sampleSin (blankPage (codes "Hi there!")))
  /\ exists out,
       runPipeline sampleLower sampleSin sampleDigits
         (blankPage (codes "Hi there!")) = Some out
       /\ tokensOut_textContent out = codes "hi, there, !"
       /\ idsOut_textContent out = codes "257, 612, 33"
       /\ matrixMeta_textContent out
          = codes "3 " ++ timesSign ++ codes " 8 (tokens " ++ timesSign
              ++ codes " dimensions)".
Proof.
  apply (hi_there_scenario sampleLower sampleSin sampleDigits
           (blankPage (codes "Hi there!"))).
  reflexivity.
Defined.

Lemma pipeline_deterministic_witness :
  pipelineTokens sampleLower (blankPage (codes "Hi there!"))
  = pipelineTokens sampleLower (usedPage (codes "Hi there!"))
  /\ pipelineIds sampleLower (blankPage (codes "Hi there!"))
     = pipelineIds sampleLower (usedPage (codes "Hi there!"))
  /\ pipelineMatrix sampleLower sampleSin (blankPage (codes "Hi there!"))
     = pipelineMatrix sampleLower sampleSin (usedPage (codes "Hi there!"))
  /\ exists out1 out2,
       runPipeline sampleLower sampleSin sampleDigits
         (blankPage (codes "Hi there!")) = Some out1
       /\ runPipeline sampleLower sampleSin sampleDigits
            (usedPage (codes "Hi there!")) = Some out2
       /\ tokensOut_textContent out1 = tokensOut_textContent out2
       /\ idsOut_textContent out1 = idsOut_textContent out2
       /\ matrixMeta_textContent out1 = matrixMeta_textContent out2
       /\ matrixContainer_hasMatrix out1 = matrixContainer_hasMatrix out2
       /\ matrixGrid_children out1 = matrixGrid_children out2
       /\ runPipeline sampleLower sampleSin sampleDigits out1 = Some out1.
Proof.
  apply (pipeline_deterministic sampleLower sampleSin sampleDigits
           (blankPage (codes "Hi there!")) (usedPage (codes "Hi there!"))).
  reflexivity.
Defined.

Lemma blank_input_placeholders_witness :
  pipelineTokens sampleLower (usedPage (codes "   ")) = []
  /\ pipelineIds sampleLower (usedPage (codes "   ")) = []
  /\ pipelineMatrix sampleLower sampleSin (usedPage (codes "   ")) = []
  /\ runPipeline sampleLower sampleSin sampleDigits (usedPage (codes "   "))
     = Some (mkDom (textInput_value (usedPage (codes "   ")))
               emDash emDash emDash false
               (matrixGrid_gridTemplateColumns (usedPage (codes "   ")))
               (matrixGrid_gridTemplateRows (usedPage (codes "   "))) []).
Proof.
  apply (proj1 (blank_input_placeholders sampleLower sampleSin sampleDigits)
           (usedPage (codes "   "))).
  repeat constructor.
Defined.

Lemma row_label_truncation_witness :
  exists token label,
    nth_error sampleTokens 0 = Some token
    /\ nth_error (matrixGrid_children sampleRendered)
         (1 + length (hd [] sampleMatrix)
          + 0 * (1 + length (hd [] sampleMatrix)))
       = Some (createCell label (codes "token-label"))
    /\ ((length token <= 10)%nat -> label = token)
    /\ ((10 < length token)%nat ->
        label = firstn 8 token ++ ellipsis
        /\ length (firstn 8 token) = 8%nat).
Proof.
  apply (row_label_truncation sampleDigits sampleTokens sampleMatrix
           (blankPage []) sampleRendered 0).
  - vm_compute. reflexivity.
  - simpl. lia.
Defined.

Lemma embedToken_values_witness :
  (exists v k,
      nth_error (embedToken sampleSin 3 8) 2 = Some v
      /\ inUnit v /\ (0 <= k <= 100)%Z /\ v = centi k)
  /\ embedToken sampleSin 0 1 = [0.5%float].
Proof.
  split.
  - apply (proj2 (proj1 (proj2 (embedToken_values sampleSin 3 8)) 2%nat
                    ltac:(repeat constructor))).
    split; vm_compute; reflexivity.
  - apply (proj2 (proj2 (embedToken_values sampleSin 0 1))).
    reflexivity.
Defined.

Lemma heatmap_anchor_cells_witness :
  exists row value cell,
    nth_error sampleMatrix 1 = Some row
    /\ nth_error row 1 = Some value
    /\ nth_error (matrixGrid_children sampleRendered)
         (1 + length (hd [] sampleMatrix)
          + 1 * (1 + length (hd [] sampleMatrix)) + 1 + 1)
       = Some cell
    /\ style_background cell
       = heatmapColor sampleDigits (heatMin sampleMatrix)
           (heatRange sampleMatrix) value
    /\ ((value =? heatMin sampleMatrix)%float = true ->
        style_background cell = colorAt sampleDigits 0%float)
    /\ ((value =? heatMax sampleMatrix)%float = true ->
        (heatMin sampleMatrix <? heatMax sampleMatrix)%float = true ->
        style_background cell = colorAt sampleDigits 1%float)
    /\ ((heatMin sampleMatrix =? heatMax sampleMatrix)%float = true ->
        heatRange sampleMatrix = 1%float
        /\ style_background cell = colorAt sampleDigits 0%float)
    /\ ((heatMin sampleMatrix <? heatMax sampleMatrix)%float = true
        \/ (heatMin sampleMatrix =? heatMax sampleMatrix)%float = true)
    /\ colorAt sampleDigits 0%float = codes "rgb(255,255,252)"
    /\ colorAt sampleDigits 1%float = codes "rgb(125,211,252)".
Proof.
  apply (heatmap_anchor_cells sampleDigits sampleTokens sampleMatrix
           (blankPage []) sampleRendered 1 1).
  - repeat constructor.
  - vm_compute. reflexivity.
  - simpl. lia.
  - simpl. lia.
Defined.

(** * Further properties *)

(** ** Tokenizer: nothing but white space is lost *)

Lemma concat_splitFrom (s piece : JsString.t) (gap : bool) :
  (gap = true -> piece = []) ->
  concat (splitFrom piece gap s)
  = rev piece ++ filter (fun c => negb (isSpace c)) s.
Proof.
  revert piece gap. induction s as [ | c r IH ]; intros piece gap Hgap; simpl.
  - now rewrite !app_nil_r.
  - destruct (isSpace c) eqn:E; simpl.
    + destruct gap.
      * rewrite (Hgap eq_refl). rewrite IH by reflexivity. reflexivity.
      * simpl. rewrite IH by reflexivity. reflexivity.
    + rewrite IH by discriminate. simpl. now rewrite <- app_assoc.
Qed.

Lemma concat_filter_truthy (l : list JsString.t) :
  concat (filter truthy l) = concat l.
Proof.
  induction l as [ | a r IH ]; simpl; [ reflexivity | ].
  destruct a as [ | c a ]; simpl; [ exact IH | now rewrite IH ].
Qed.

Lemma filter_isolatePunctuation (u : JsString.t) :
  filter (fun c => negb (isSpace c)) (isolatePunctuation u)
  = filter (fun c => negb (isSpace c)) u.
Proof.
  induction u as [ | c r IH ]; simpl; [ reflexivity | ].
  rewrite filter_app, IH.
  unfold isolate. destruct (isWord c || isSpace c) eqn:E.
  - simpl. now destruct (isSpace c).
  - apply orb_false_iff in E. destruct E as [_ E].
    simpl. rewrite E. reflexivity.
Qed.

Lemma filter_dropSpaces (s : JsString.t) :
  filter (fun c => negb (isSpace c)) (dropSpaces s)
  = filter (fun c => negb (isSpace c)) s.
Proof.
  induction s as [ | c r IH ]; simpl; [ reflexivity | ].
  destruct (isSpace c) eqn:E; simpl; [ exact IH | now rewrite E ].
Qed.

Lemma filter_trim (s : JsString.t) :
  filter (fun c => negb (isSpace c)) (trim s)
  = filter (fun c => negb (isSpace c)) s.
Proof.
  unfold trim. rewrite filter_rev, filter_dropSpaces.
  rewrite filter_rev, rev_involutive. apply filter_dropSpaces.
Qed.

Lemma dropSpaces_snoc (l : JsString.t) (c : Z) :
  isSpace c = false -> dropSpaces (l ++ [c]) = dropSpaces l ++ [c].
Proof.
  intros Hc. induction l as [ | a r IH ]; simpl.
  - now rewrite Hc.
  - destruct (isSpace a); [ exact IH | reflexivity ].
Qed.

Lemma dropSpaces_idempotent (s : JsString.t) :
  dropSpaces (dropSpaces s) = dropSpaces s.
Proof.
  induction s as [ | c r IH ]; simpl; [ reflexivity | ].
  destruct (isSpace c) eqn:E; [ exact IH | ]. simpl. now rewrite E.
Qed.

Lemma trim_idempotent (s : JsString.t) : trim (trim s) = trim s.
Proof.
  unfold trim at 1.
  assert (H : dropSpaces (trim s) = trim s).
  { unfold trim. destruct (dropSpaces s) as [ | c r ] eqn:E; [ reflexivity | ].
    assert (Hc : isSpace c = false).
    { clear -E. induction s as [ | a s IH ]; simpl in E; [ discriminate | ].
      destruct (isSpace a) eqn:Ea; [ now apply IH | congruence ]. }
    simpl rev. rewrite (dropSpaces_snoc _ c Hc).
    rewrite rev_app_distr. simpl. now rewrite Hc. }
  rewrite H. unfold trim. rewrite rev_involutive.
  now rewrite dropSpaces_idempotent.
Qed.

Lemma isSpace_asciiLower (c : Z) : isSpace (asciiLower c) = isSpace c.
Proof.
  unfold asciiLower. destruct ((65 <=? c) && (c <=? 90)) eqn:E; [ | reflexivity ].
  apply andb_true_iff in E. destruct E as [E1 E2].
  apply Z.leb_le in E1. apply Z.leb_le in E2.
  assert (Hw : isWord c = true).
  { unfold isWord. replace ((65 <=? c) && (c <=? 90)) with true; [ reflexivity | ].
    symmetry. apply andb_true_iff. split; apply Z.leb_le; lia. }
  assert (Hw' : isWord (c + 32) = true).
  { unfold isWord.
    replace ((97 <=? c + 32) && (c + 32 <=? 122)) with true;
      [ now rewrite orb_true_r | ].
    symmetry. apply andb_true_iff. split; apply Z.leb_le; lia. }
  now rewrite (isWord_not_space _ Hw), (isWord_not_space _ Hw').
Qed.

Lemma asciiLower_not_upper (c : Z) :
  (65 <=? asciiLower c) && (asciiLower c <=? 90) = false.
Proof.
  unfold asciiLower. destruct ((65 <=? c) && (c <=? 90)) eqn:E; [ | exact E ].
  apply andb_true_iff in E. destruct E as [E1 E2].
  apply Z.leb_le in E1. apply Z.leb_le in E2.
  apply andb_false_iff. right. apply Z.leb_gt. lia.
Qed.

Lemma Forall_dropSpaces (P : Z -> Prop) (s : JsString.t) :
  Forall P s -> Forall P (dropSpaces s).
Proof.
  induction 1 as [ | c r Hc Hr IH ]; simpl; [ constructor | ].
  destruct (isSpace c); [ exact IH | now constructor ].
Qed.

Lemma Forall_trim (P : Z -> Prop) (s : JsString.t) :
  Forall P s -> Forall P (trim s).
Proof.
  intros H. unfold trim. apply Forall_rev, Forall_dropSpaces, Forall_rev.
  now apply Forall_dropSpaces.
Qed.

Lemma dropSpaces_app_allSpace (a s : JsString.t) :
  allSpace a -> dropSpaces (a ++ s) = dropSpaces s.
Proof.
  induction 1 as [ | c r Hc Hr IH ]; simpl; [ reflexivity | ].
  now rewrite Hc.
Qed.

(** White space around a text is trimmed away with the text's own. *)
Lemma trim_padding (before text after : JsString.t) :
  allSpace before -> allSpace after ->
  trim (before ++ text ++ after) = trim text.
Proof.
  intros Hb Ha. unfold trim.
  rewrite (dropSpaces_app_allSpace before _ Hb).
  assert (H : forall s, dropSpaces (rev (dropSpaces (s ++ after)))
                        = dropSpaces (rev (dropSpaces s))).
  { intros s. induction s as [ | c r IH ]; simpl.
    - rewrite (dropSpaces_allSpace after Ha). reflexivity.
    - destruct (isSpace c) eqn:E; [ exact IH | ].
      change (c :: r ++ after) with ((c :: r) ++ after).
      rewrite rev_app_distr.
      apply dropSpaces_app_allSpace. now apply Forall_rev. }
  now rewrite H.
Qed.

Section TokenizerConservation.

Variable unicodeLower : JsString.t -> Z -> JsString.t -> JsString.t.

Lemma tokenize_concat (text : JsString.t) :
  concat (tokenize unicodeLower text)
  = filter (fun c => negb (isSpace c)) (toLowerCase unicodeLower (trim text)).
Proof.
  unfold tokenize.
  destruct (negb (truthy text) || negb (truthy (trim text))) eqn:E.
  - assert (Ht : trim text = []).
    { destruct text as [ | c r ]; [ reflexivity | ].
      simpl in E. destruct (trim (c :: r)); [ reflexivity | discriminate ]. }
    rewrite Ht. reflexivity.
  - rewrite concat_filter_truthy. unfold splitSpaces.
    rewrite concat_splitFrom by discriminate. simpl.
    apply filter_isolatePunctuation.
Qed.

(** X1. The tokens, put back together in order, are the trimmed and
    lower-cased text without its white space: the tokenizer drops white space
    and nothing else, and keeps the order; and no token is empty. *)
Theorem tokenize_conserves (text : JsString.t) :
  concat (tokenize unicodeLower text)
  = filter (fun c => negb (isSpace c)) (toLowerCase unicodeLower (trim text))
  /\ Forall (fun tok => tok <> []) (tokenize unicodeLower text).
Proof.
  split; [ apply tokenize_concat | ].
  apply Forall_forall. intros tok Hin. unfold tokenize in Hin.
  destruct (negb (truthy text) || negb (truthy (trim text)));
    [ contradiction | ].
  apply filter_In in Hin. destruct Hin as [_ Ht].
  intros ->. discriminate.
Qed.

Lemma tokenize_trim_eq (text : JsString.t) :
  tokenize unicodeLower (trim text) = tokenize unicodeLower text.
Proof.
  unfold tokenize. rewrite trim_idempotent.
  destruct text as [ | c r ]; [ reflexivity | ].
  simpl truthy at 2. simpl negb at 3. rewrite orb_false_l.
  destruct (trim (c :: r)); reflexivity.
Qed.

(** X2. White space around the text does not matter: tokenizing the
    trimmed text gives the tokens of the text, so the [trim] of
    [runPipeline] before [tokenize] changes nothing, and neither does white
    space added around the text. *)
Theorem tokenize_trim (text : JsString.t) :
  tokenize unicodeLower (trim text) = tokenize unicodeLower text
  /\ forall before after : JsString.t,
       allSpace before -> allSpace after ->
       tokenize unicodeLower (before ++ text ++ after)
       = tokenize unicodeLower text.
Proof.
  split; [ apply tokenize_trim_eq | ].
  intros before after Hb Ha.
  rewrite <- (tokenize_trim_eq (before ++ text ++ after)).
  rewrite <- (tokenize_trim_eq text).
  f_equal. now apply trim_padding.
Qed.

(** X3. On a text of ASCII code units the tokens, put back together, are
    the text without its white space with [A-Z] turned into [a-z], so no
    token holds an upper-case ASCII letter. *)
Theorem tokenize_ascii (text : JsString.t) :
  Forall (fun c => (c <? 128) = true) text ->
  concat (tokenize unicodeLower text)
  = map asciiLower (filter (fun c => negb (isSpace c)) text)
  /\ forall tok c,
       In tok (tokenize unicodeLower text) -> In c tok ->
       (65 <=? c) && (c <=? 90) = false.
Proof.
  intros Hascii.
  assert (E : concat (tokenize unicodeLower text)
              = map asciiLower (filter (fun c => negb (isSpace c)) text)).
  { rewrite tokenize_concat. unfold toLowerCase.
    rewrite lowerFrom_ascii by now apply Forall_trim.
    rewrite <- (filter_trim text).
    induction (trim text) as [ | c r IH ]; simpl; [ reflexivity | ].
    rewrite isSpace_asciiLower. destruct (isSpace c); simpl; now rewrite IH. }
  split; [ exact E | ].
  intros tok c Htok Hc.
  assert (Hin : In c (concat (tokenize unicodeLower text))).
  { apply in_concat. eauto. }
  rewrite E in Hin. apply in_map_iff in Hin. destruct Hin as [c0 [<- _]].
  apply asciiLower_not_upper.
Qed.

End TokenizerConservation.

(** ** Identifier hasher: the wrap-around does not reach the id *)

Lemma hashStep_mod (a b c : Z) :
  a mod 1024 = b mod 1024 ->
  hashStep a c mod 1024 = (b * 31 + c) mod 1024.
Proof.
  intros H. unfold hashStep, toUint32.
  rewrite Z.mod_mod_divide by (exists (2 ^ 22); reflexivity).
  rewrite (Z.add_mod (a * 31)), (Z.mul_mod a), H by lia.
  rewrite <- (Z.mul_mod b), <- Z.add_mod by lia. reflexivity.
Qed.

Lemma fold_hashStep_mod (token : JsString.t) (a b : Z) :
  a mod 1024 = b mod 1024 ->
  fold_left hashStep token a mod 1024
  = fold_left (fun h c => h * 31 + c) token b mod 1024.
Proof.
  revert a b. induction token as [ | c r IH ]; intros a b H; simpl.
  - exact H.
  - apply IH. now apply hashStep_mod.
Qed.

(** X13. With code units below 2^16, at every turn of the loop the
    accumulator is an integer in [0, 2^32) and the sum [h * 31 + c] computed
    before [>>> 0] is an integer in [0, 2^53): the double arithmetic of the
    loop never rounds. *)
Theorem hash_loop_exact (before after : JsString.t) (c : Z) :
  Forall (fun u => 0 <= u < 65536) (before ++ c :: after) ->
  let h := fold_left hashStep before 0 in
  0 <= h < 2 ^ 32
  /\ 0 <= h * 31 + c < 2 ^ 53
  /\ fold_left hashStep (before ++ c :: after) 0
     = fold_left hashStep after (hashStep h c).
Proof.
  intros Hall h.
  assert (Hh : 0 <= h < 2 ^ 32).
  { unfold h. rewrite fold_hashStep_spec. apply hashSpec_range.
    split; [ lia | reflexivity ]. }
  assert (Hc : 0 <= c < 65536).
  { rewrite Forall_forall in Hall. apply Hall.
    apply in_or_app. right. now left. }
  split; [ exact Hh | ].
  split; [ exact (proj1 (hashStep_exact h c Hh Hc)) | ].
  rewrite fold_left_app. reflexivity.
Qed.

(** X4. The id is the plain polynomial hash of the code units modulo 1024:
    the 32-bit wrap-around of the accumulator never changes an id. *)
Theorem tokenToId_polynomial (token : JsString.t) :
  tokenToId token = polyHash token mod 1024.
Proof.
  destruct (tokenToId_refines token) as [E _]. rewrite E.
  unfold tokenToIdSpec, polyHash. rewrite <- fold_hashStep_spec.
  now apply fold_hashStep_mod.
Qed.

(** ** The input listener and the run *)

Section Listener.

Variable unicodeLower : JsString.t -> Z -> JsString.t -> JsString.t.
Variable Math_sin : float -> float.
Variable hostNumberToString : float -> JsString.t.

Lemma pipeline_blank (dom : Dom) :
  trim (textInput_value dom) = [] ->
  pipelineTokens unicodeLower dom = []
  /\ pipelineIds unicodeLower dom = []
  /\ pipelineMatrix unicodeLower Math_sin dom = [].
Proof.
  intros H.
  assert (Ht : pipelineTokens unicodeLower dom = []).
  { unfold pipelineTokens, pipelineText. rewrite H. reflexivity. }
  unfold pipelineMatrix, pipelineIds. rewrite Ht. auto.
Qed.

(** X5. The [input] listener clears the marker and the grid when the text
    is blank and leaves the three summaries as they were; on any other text
    it changes nothing; and a run after the listener gives the page of a run
    without it. *)
Theorem onInput_then_run (dom : Dom) :
  (trim (textInput_value dom) = [] ->
   matrixContainer_hasMatrix (onInput dom) = false
   /\ matrixGrid_children (onInput dom) = []
   /\ tokensOut_textContent (onInput dom) = tokensOut_textContent dom
   /\ idsOut_textContent (onInput dom) = idsOut_textContent dom
   /\ matrixMeta_textContent (onInput dom) = matrixMeta_textContent dom)
  /\ (trim (textInput_value dom) <> [] -> onInput dom = dom)
  /\ runPipeline unicodeLower Math_sin hostNumberToString (onInput dom)
     = runPipeline unicodeLower Math_sin hostNumberToString dom.
Proof.
  unfold onInput.
  destruct (trim (textInput_value dom)) as [ | c r ] eqn:E.
  - split; [ intros _; simpl; auto | ].
    split; [ intros N; now contradiction N | ].
    set (dom1 := mkDom _ _ _ _ _ _ _ _).
    assert (E1 : trim (textInput_value dom1) = []) by exact E.
    destruct (pipeline_blank dom E) as [Ht [Hi Hm]].
    destruct (pipeline_blank dom1 E1) as [Ht1 [Hi1 Hm1]].
    unfold runPipeline. rewrite Ht, Hi, Hm, Ht1, Hi1, Hm1. reflexivity.
  - split; [ discriminate | ]. split; reflexivity.
Qed.

(** X6. Row [r] of the matrix is the embedding of the id of token [r]: the
    lookup [ids[i]] inside [map] never misses, so no row comes from an
    undefined id, and equal tokens get equal ids and equal rows. *)
Theorem matrix_row_of_token (dom : Dom) (r : nat) (token : JsString.t) :
  nth_error (pipelineTokens unicodeLower dom) r = Some token ->
  nth_error (pipelineIds unicodeLower dom) r = Some (tokenToId token)
  /\ nth_error (pipelineMatrix unicodeLower Math_sin dom) r
     = Some (embedToken Math_sin (ofZ (tokenToId token)) 8)
  /\ forall r',
       nth_error (pipelineTokens unicodeLower dom) r' = Some token ->
       nth_error (pipelineMatrix unicodeLower Math_sin dom) r'
       = nth_error (pipelineMatrix unicodeLower Math_sin dom) r.
Proof.
  intros H. split; [ | split ].
  - unfold pipelineIds. now rewrite nth_error_map, H.
  - now apply pipelineMatrix_nth.
  - intros r' H'.
    rewrite (pipelineMatrix_nth unicodeLower Math_sin dom r token H).
    now apply pipelineMatrix_nth.
Qed.

Lemma tokenize_nil_iff_ascii (text : JsString.t) :
  Forall (fun c => (c <? 128) = true) text ->
  tokenize unicodeLower text = [] <-> allSpace text.
Proof.
  intros Hascii. split; [ | apply tokenize_blank ].
  intros H.
  assert (E : filter (fun c => negb (isSpace c))
                (toLowerCase unicodeLower (trim text)) = []).
  { rewrite <- tokenize_concat, H. reflexivity. }
  unfold toLowerCase in E.
  rewrite lowerFrom_ascii in E by now apply Forall_trim.
  apply trim_nil_iff.
  destruct (trim text) as [ | c r ] eqn:Et; [ reflexivity | exfalso ].
  assert (Hc : isSpace c = false).
  { pose proof (trim_idempotent text) as I. rewrite Et in I.
    unfold trim in I. simpl dropSpaces at 2 in I.
    destruct (isSpace c) eqn:Ec; [ | reflexivity ].
    exfalso.
    assert (L : (length (rev (dropSpaces (rev (dropSpaces r)))) <= length r)%nat).
    { rewrite length_rev.
      assert (D : forall s, (length (dropSpaces s) <= length s)%nat).
      { intros s. induction s as [ | a s IH ]; simpl; [ lia | ].
        destruct (isSpace a); simpl; lia. }
      eapply Nat.le_trans; [ apply D | ]. rewrite length_rev. apply D. }
    rewrite I in L. simpl in L. lia. }
  simpl in E. rewrite isSpace_asciiLower, Hc in E. discriminate.
Qed.

(** X7. For a text of ASCII code units, a run sets the [has-matrix] marker
    exactly when the text has a character that is not white space, and shows
    the placeholders otherwise. *)
Theorem marker_iff_not_blank (dom out : Dom) :
  Forall (fun c => (c <? 128) = true) (textInput_value dom) ->
  runPipeline unicodeLower Math_sin hostNumberToString dom = Some out ->
  (matrixContainer_hasMatrix out = true <-> ~ allSpace (textInput_value dom))
  /\ (matrixContainer_hasMatrix out = false ->
      tokensOut_textContent out = emDash
      /\ idsOut_textContent out = emDash
      /\ matrixMeta_textContent out = emDash
      /\ matrixGrid_children out = []).
Proof.
  intros Hascii Hrun.
  pose proof (runPipeline_outputs unicodeLower Math_sin hostNumberToString
                dom out Hrun) as O. cbv zeta in O.
  destruct O as [_ [A [B [C [D E]]]]].
  pose proof (pipelineMatrix_length unicodeLower Math_sin dom) as L.
  assert (T : pipelineTokens unicodeLower dom = []
              <-> allSpace (textInput_value dom)).
  { unfold pipelineTokens, pipelineText. rewrite tokenize_trim_eq.
    now apply tokenize_nil_iff_ascii. }
  destruct (pipelineMatrix unicodeLower Math_sin dom) as [ | row0 rest ] eqn:Em.
  - assert (Ht : pipelineTokens unicodeLower dom = []).
    { destruct (pipelineTokens unicodeLower dom); [ reflexivity | discriminate ]. }
    split.
    + rewrite D. split; [ discriminate | ].
      intros N. exfalso. apply N. now apply T.
    + intros _. rewrite A, B, C, Ht. unfold pipelineIds. rewrite Ht.
      repeat split; auto.
  - split.
    + rewrite D. split; [ | reflexivity ]. intros _ S.
      apply T in S. rewrite S in L. discriminate.
    + rewrite D. discriminate.
Qed.

End Listener.

(** ** The grid: size, headers and value cells *)

Lemma length_concat_blocks {A : Type} (g : nat -> list A) (k rows s : nat) :
  (forall i, (s <= i < s + rows)%nat -> length (g i) = k) ->
  length (concat (map g (seq s rows))) = (rows * k)%nat.
Proof.
  revert s. induction rows as [ | rows IH ]; intros s H; simpl.
  - reflexivity.
  - rewrite length_app, H by lia. rewrite IH; [ reflexivity | ].
    intros i Hi. apply H. lia.
Qed.

Lemma collect_map_None {A X : Type} (f : X -> option (list A)) (l : list X)
    (x : X) :
  In x l -> f x = None -> collect (map f l) = None.
Proof.
  intros Hin Hx. induction l as [ | a r IH ]; simpl; [ contradiction | ].
  destruct Hin as [-> | Hin].
  - now rewrite Hx.
  - destruct (f a); [ | reflexivity ]. now rewrite (IH Hin).
Qed.

Lemma JsString_eqb_eq (a b : JsString.t) : JsString.eqb a b = true -> a = b.
Proof.
  unfold JsString.eqb. destruct (list_eq_dec Z.eq_dec a b); congruence.
Qed.

Section GridLayout.

Local Open Scope float_scope.

Variable hostNumberToString : float -> JsString.t.

(** X8. A rendered grid has [(rows + 1) * (cols + 1)] cells: the empty
    corner first, then the headers [d0 ... d(cols-1)], then the rows; and
    the two grid templates name [cols] columns and [rows] rows. *)
Theorem grid_layout (tokens : list JsString.t) (matrix : list (list float))
    (dom dom' : Dom) :
  renderMatrix hostNumberToString tokens matrix dom = Some dom' ->
  let rows := length matrix in
  let cols := length (hd [] matrix) in
  length (matrixGrid_children dom') = ((rows + 1) * (cols + 1))%nat
  /\ nth_error (matrixGrid_children dom') 0
     = Some (createCell [] (codes "corner dim-label token-label"))
  /\ (forall c, (c < cols)%nat ->
        nth_error (matrixGrid_children dom') (1 + c)
        = Some (createCell (codes "d" ++ ofInt (Z.of_nat c))
                  (codes "dim-label")))
  /\ matrixGrid_gridTemplateColumns dom'
     = codes "auto repeat(" ++ ofInt (Z.of_nat cols) ++ codes ", 22px)"
  /\ matrixGrid_gridTemplateRows dom'
     = codes "auto repeat(" ++ ofInt (Z.of_nat rows) ++ codes ", 22px)".
Proof.
  unfold renderMatrix.
  destruct matrix as [ | row0 rest ]; [ discriminate | ].
  set (m := row0 :: rest). simpl hd.
  set (step := renderRow hostNumberToString tokens m (heatMin m)
                 (heatRange m) (length row0)).
  destruct (collect (map step (seq 0 (length m)))) as [ body | ] eqn:Eb;
    [ | discriminate ].
  intros [= <-]. cbv zeta. simpl matrixGrid_children.
  simpl matrixGrid_gridTemplateColumns. simpl matrixGrid_gridTemplateRows.
  apply collect_map_inv in Eb. destruct Eb as [-> Hall].
  rewrite Forall_forall in Hall.
  set (g := fun x => match step x with Some y => y | None => [] end).
  assert (Hlen : forall i, (0 <= i < 0 + length m)%nat ->
            length (g i) = S (length row0)).
  { intros i Hi. unfold g. destruct (step i) as [ cells | ] eqn:E.
    - apply renderRow_inv in E.
      destruct E as [t [w [v [_ [_ [-> [Hv _]]]]]]]. simpl. now rewrite Hv.
    - exfalso. apply (Hall i); [ apply in_seq; lia | exact E ]. }
  split; [ | split; [ reflexivity | split; [ | split; reflexivity ] ] ].
  - match goal with
    | |- length (?a :: ?l) = _ => change (length (a :: l)) with (S (length l))
    end.
    rewrite length_app, length_map, length_seq.
    rewrite (length_concat_blocks g (S (length row0)) (length m) 0 Hlen).
    lia.
  - intros c Hc.
    match goal with
    | |- nth_error (?a :: ?l) (1 + c) = _ =>
        change (nth_error (a :: l) (1 + c)) with (nth_error l c)
    end.
    rewrite nth_error_app1 by (rewrite length_map, length_seq; exact Hc).
    rewrite nth_error_map, nth_error_seq.
    destruct (Nat.ltb_spec c (length row0)); [ reflexivity | lia ].
Qed.

Lemma value_cell_table :
  forallb
    (fun n =>
       let k := Z.of_nat n in
       JsString.eqb (toFixed2 hostNumberToString (centi k))
         (ofInt (k / 100) ++ codes "."
            ++ [(48 + (k / 10) mod 10)%Z; (48 + k mod 10)%Z])
       && Bool.eqb (0.5 <? centi k) (50 <? k)%Z)
    (seq 0 101) = true.
Proof. vm_compute. reflexivity. Qed.

(** X9. The cell of a value with two decimals [k / 100], [0 <= k <= 100],
    shows exactly the digits of [k / 100] with a point before the last two,
    and its text has the colour [var(--bg)] when [k > 50] and [var(--text)]
    otherwise; the heat-map scale does not reach the text. *)
Theorem value_cell_text (min range : float) (k : Z) :
  (0 <= k <= 100)%Z ->
  textContent (valueCell hostNumberToString min range (centi k))
  = ofInt (k / 100) ++ codes "."
      ++ [(48 + (k / 10) mod 10)%Z; (48 + k mod 10)%Z]
  /\ style_color (valueCell hostNumberToString min range (centi k))
     = (if (50 <? k)%Z then codes "var(--bg)" else codes "var(--text)")
  /\ className (valueCell hostNumberToString min range (centi k))
     = codes "matrix-cell value".
Proof.
  intros Hk. pose proof value_cell_table as T.
  rewrite forallb_forall in T.
  specialize (T (Z.to_nat k)). cbv zeta in T.
  rewrite Z2Nat.id in T by lia.
  assert (Hin : In (Z.to_nat k) (seq 0 101)) by (apply in_seq; lia).
  apply T in Hin. apply andb_true_iff in Hin. destruct Hin as [H1 H2].
  apply JsString_eqb_eq in H1. apply Bool.eqb_prop in H2.
  unfold valueCell. simpl. rewrite H1, H2. auto.
Qed.

End GridLayout.

(** ** When the renderer throws *)

Section RendererErrors.

Variable hostNumberToString : float -> JsString.t.

Lemma renderRow_short_row (tokens : list JsString.t)
    (matrix : list (list float)) (min range : float) (cols r : nat)
    (row : list float) :
  nth_error matrix r = Some row -> (length row < cols)%nat ->
  renderRow hostNumberToString tokens matrix min range cols r = None.
Proof.
  intros Hrow Hshort. unfold renderRow.
  destruct (nth_error tokens r); [ | reflexivity ]. rewrite Hrow.
  rewrite (collect_map_None
             (cellStep hostNumberToString min range row) (seq 0 cols)
             (length row)); [ reflexivity | apply in_seq; lia | ].
  unfold cellStep.
  destruct (nth_error row (length row)) eqn:E; [ | reflexivity ].
  assert (length row < length row)%nat; [ | lia ].
  apply nth_error_Some. congruence.
Qed.

(** X10. [renderMatrix] throws exactly on an empty matrix, on a matrix with
    more rows than there are tokens, and on a matrix with a row shorter than
    its first row; [runPipeline] guards the first case and its matrix never
    meets the other two. *)
Theorem renderMatrix_throws_iff (tokens : list JsString.t)
    (matrix : list (list float)) (dom : Dom) :
  renderMatrix hostNumberToString tokens matrix dom = None
  <-> matrix = []
      \/ (length tokens < length matrix)%nat
      \/ Exists (fun row => (length row < length (hd [] matrix))%nat) matrix.
Proof.
  split.
  - intros Hnone.
    destruct matrix as [ | row0 rest ]; [ now left | right ].
    set (m := row0 :: rest) in *.
    destruct (Nat.lt_ge_cases (length tokens) (length m)) as [Hlt | Hge];
      [ now left | right ].
    destruct (Forall_Exists_dec
                (fun row => (length (hd [] m) <= length row)%nat)
                (fun row => le_dec (length (hd [] m)) (length row)) m)
      as [Hall | Hex].
    + exfalso.
      destruct (renderMatrix_total hostNumberToString tokens m dom)
        as [dom' Hsome]; [ discriminate | exact Hge | exact Hall | ].
      congruence.
    + eapply Exists_impl; [ | exact Hex ]. simpl. intros row Hrow. lia.
  - intros [-> | [Hlt | Hex]]; [ reflexivity | | ].
    + unfold renderMatrix.
      destruct matrix as [ | row0 rest ]; [ reflexivity | ].
      set (m := row0 :: rest) in *.
      rewrite (collect_map_None
                 (renderRow hostNumberToString tokens m (heatMin m)
                    (heatRange m) (length row0))
                 (seq 0 (length m)) (length tokens));
        [ reflexivity | apply in_seq; lia | ].
      unfold renderRow.
      destruct (nth_error tokens (length tokens)) eqn:E; [ | reflexivity ].
      assert (length tokens < length tokens)%nat; [ | lia ].
      apply nth_error_Some. congruence.
    + unfold renderMatrix.
      destruct matrix as [ | row0 rest ]; [ reflexivity | ].
      set (m := row0 :: rest) in *. simpl hd in Hex.
      apply Exists_exists in Hex. destruct Hex as [row [Hin Hshort]].
      apply In_nth_error in Hin. destruct Hin as [r Hr].
      rewrite (collect_map_None
                 (renderRow hostNumberToString tokens m (heatMin m)
                    (heatRange m) (length row0))
                 (seq 0 (length m)) r);
        [ reflexivity | | now apply (renderRow_short_row _ _ _ _ _ _ row) ].
      apply in_seq. split; [ lia | ].
      assert (r < length m)%nat; [ | lia ].
      apply nth_error_Some. congruence.
Qed.

End RendererErrors.

(** ** The embedder and its dimension count *)

Section EmbedderPrefix.

Variable Math_sin : float -> float.

(** X11. The value of a dimension does not depend on the dimension count:
    the embedding with [n] dimensions is the start of the embedding with
    [n + k] dimensions. *)
Theorem embedToken_prefix (id : float) (n k : nat) :
  firstn n (embedToken Math_sin id (n + k)) = embedToken Math_sin id n
  /\ forall d, (d < n)%nat ->
       nth_error (embedToken Math_sin id (n + k)) d
       = nth_error (embedToken Math_sin id n) d.
Proof.
  assert (E : embedToken Math_sin id (n + k)
              = embedToken Math_sin id n
                  ++ map (embedValue Math_sin id) (seq n k)).
  { rewrite !embedToken_seq, seq_app, map_app. reflexivity. }
  split.
  - rewrite E.
    rewrite <- (embedToken_length Math_sin id n) at 1.
    rewrite firstn_app, firstn_all, Nat.sub_diag. simpl.
    apply app_nil_r.
  - intros d Hd. rewrite E. apply nth_error_app1.
    now rewrite embedToken_length.
Qed.

End EmbedderPrefix.

(** ** The cells of a run *)

Section RunCells.

Local Open Scope float_scope.
Local Set Warnings "-inexact-float".

Variable unicodeLower : JsString.t -> Z -> JsString.t -> JsString.t.
Variable Math_sin : float -> float.
Variable hostNumberToString : float -> JsString.t.

Hypothesis Math_sin_range :
  forall (id : Z) (d : nat),
    (0 <= id < 1024)%Z -> (d < 8)%nat ->
    inSinRange (Math_sin (ofZ id * 0.1 + ofNat d * 0.5)).

(** X12. In a run, with the sine of the host between -1 and 1, the cell of
    row [r] and dimension [c] stands at index [9 + 9 r + 1 + c] of the grid
    and holds a value with two decimals [k / 100], [0 <= k <= 100]; it is
    painted [rgb(255,255,252)] when it holds the minimum of the matrix and
    [rgb(125,211,252)] when it holds the maximum and the maximum is above
    the minimum. *)
Theorem run_cells (dom out : Dom) (r c : nat) :
  runPipeline unicodeLower Math_sin hostNumberToString dom = Some out ->
  (r < length (pipelineTokens unicodeLower dom))%nat ->
  (c < 8)%nat ->
  let matrix := pipelineMatrix unicodeLower Math_sin dom in
  exists token k cell,
    nth_error (pipelineTokens unicodeLower dom) r = Some token
    /\ (0 <= k <= 100)%Z
    /\ embedValue Math_sin (ofZ (tokenToId token)) c = centi k
    /\ nth_error (matrixGrid_children out) (9 + r * 9 + 1 + c) = Some cell
    /\ cell = valueCell hostNumberToString (heatMin matrix)
                (heatRange matrix) (centi k)
    /\ ((centi k =? heatMin matrix) = true ->
        style_background cell = codes "rgb(255,255,252)")
    /\ ((centi k =? heatMax matrix) = true ->
        (heatMin matrix <? heatMax matrix) = true ->
        style_background cell = codes "rgb(125,211,252)").
Proof.
  intros Hrun Hr Hc matrix.
  pose proof (pipelineMatrix_length unicodeLower Math_sin dom) as Hlen.
  pose proof (pipelineMatrix_rows unicodeLower Math_sin dom) as Hrows.
  pose proof (pipelineMatrix_unit unicodeLower Math_sin Math_sin_range dom)
    as Hunit.
  fold matrix in Hlen, Hrows, Hunit.
  assert (Hrender : exists page,
             renderMatrix hostNumberToString
               (pipelineTokens unicodeLower dom) matrix page = Some out).
  { revert Hrun. unfold runPipeline. fold matrix.
    destruct matrix as [ | row0 rest ] eqn:Em; [ simpl in Hlen; lia | ].
    intros H. eauto. }
  destruct Hrender as [page Hrender].
  assert (Hcols : length (hd [] matrix) = 8%nat).
  { destruct matrix as [ | row0 rest ]; [ simpl in Hlen; lia | ].
    inversion Hrows; subst. assumption. }
  destruct (renderMatrix_cells hostNumberToString _ matrix page out r Hrender
              ltac:(lia)) as [token [row [Ht [Hrow [_ Hcells]]]]].
  rewrite Hcols in Hcells.
  destruct (Hcells c Hc) as [value [Hv Hcell]].
  unfold matrix in Hrow.
  rewrite (pipelineMatrix_nth unicodeLower Math_sin dom r token Ht) in Hrow.
  injection Hrow as <-.
  unfold dim in Hv. rewrite (embedToken_nth Math_sin _ 8 c Hc) in Hv.
  injection Hv as <-.
  destruct (embedValue_centi Math_sin (ofZ (tokenToId token)) c) as [k [Hk Ek]].
  { apply Math_sin_range; [ apply tokenToId_refines | exact Hc ]. }
  rewrite Ek in Hcell.
  assert (Hin : In (centi k) (concat matrix)).
  { rewrite <- Ek. apply in_concat.
    exists (embedToken Math_sin (ofZ (tokenToId token)) 8). split.
    - eapply nth_error_In.
      exact (pipelineMatrix_nth unicodeLower Math_sin dom r token Ht).
    - eapply nth_error_In. exact (embedToken_nth Math_sin _ 8 c Hc). }
  destruct (heatmap_colors hostNumberToString matrix (centi k) Hunit Hin)
    as [H1 [H2 _]].
  exists token, k,
    (valueCell hostNumberToString (heatMin matrix) (heatRange matrix)
       (centi k)).
  split; [ exact Ht | ]. split; [ exact Hk | ]. split; [ exact Ek | ].
  split; [ exact Hcell | ]. split; [ reflexivity | ].
  split; [ exact H1 | exact H2 ].
Qed.

End RunCells.

(** ** The further properties at concrete inputs *)

Lemma sampleSin_range (x : float) : inSinRange (sampleSin x).
Proof.
  unfold inSinRange, sampleSin.
  set (p := (x - x * x * x / 6 + x * x * x * x * x / 120)%float).
  destruct ((-1 <=? p)%float && (p <=? 1)%float) eqn:E.
  - apply andb_true_iff in E. exact E.
  - split; reflexivity.
Qed.

Lemma sampleRun_eq :
  runPipeline sampleLower sampleSin sampleDigits (usedPage (codes "Hi there!"))
  = Some sampleRun.
Proof. vm_compute. reflexivity. Qed.

Lemma tokenize_ascii_witness :
  concat (tokenize sampleLower (codes " Hi There! "))
  = map asciiLower
      (filter (fun c => negb (isSpace c)) (codes " Hi There! "))
  /\ forall tok c,
       In tok (tokenize sampleLower (codes " Hi There! ")) -> In c tok ->
       (65 <=? c) && (c <=? 90) = false.
Proof.
  apply (tokenize_ascii sampleLower (codes " Hi There! ")).
  repeat constructor.
Defined.

Lemma matrix_row_of_token_witness :
  nth_error (pipelineIds sampleLower (usedPage (codes "Hi there!"))) 1
  = Some (tokenToId (codes "there"))
  /\ nth_error
       (pipelineMatrix sampleLower sampleSin (usedPage (codes "Hi there!"))) 1
     = Some (embedToken sampleSin (ofZ (tokenToId (codes "there"))) 8)
  /\ forall r',
       nth_error (pipelineTokens sampleLower (usedPage (codes "Hi there!")))
         r' = Some (codes "there") ->
       nth_error
         (pipelineMatrix sampleLower sampleSin (usedPage (codes "Hi there!")))
         r'
       = nth_error
           (pipelineMatrix sampleLower sampleSin
              (usedPage (codes "Hi there!"))) 1.
Proof.
  apply (matrix_row_of_token sampleLower sampleSin
           (usedPage (codes "Hi there!")) 1 (codes "there")).
  reflexivity.
Defined.

Lemma marker_iff_not_blank_witness :
  (matrixContainer_hasMatrix sampleRun = true
   <-> ~ allSpace (textInput_value (usedPage (codes "Hi there!"))))
  /\ (matrixContainer_hasMatrix sampleRun = false ->
      tokensOut_textContent sampleRun = emDash
      /\ idsOut_textContent sampleRun = emDash
      /\ matrixMeta_textContent sampleRun = emDash
      /\ matrixGrid_children sampleRun = []).
Proof.
  apply (marker_iff_not_blank sampleLower sampleSin sampleDigits
           (usedPage (codes "Hi there!")) sampleRun).
  - repeat constructor.
  - exact sampleRun_eq.
Defined.

Lemma grid_layout_witness :
  length (matrixGrid_children sampleRendered)
  = ((length sampleMatrix + 1) * (length (hd [] sampleMatrix) + 1))%nat
  /\ nth_error (matrixGrid_children sampleRendered) 0
     = Some (createCell [] (codes "corner dim-label token-label"))
  /\ (forall c, (c < length (hd [] sampleMatrix))%nat ->
        nth_error (matrixGrid_children sampleRendered) (1 + c)
        = Some (createCell (codes "d" ++ ofInt (Z.of_nat c))
                  (codes "dim-label")))
  /\ matrixGrid_gridTemplateColumns sampleRendered
     = codes "auto repeat(" ++ ofInt (Z.of_nat (length (hd [] sampleMatrix)))
         ++ codes ", 22px)"
  /\ matrixGrid_gridTemplateRows sampleRendered
     = codes "auto repeat(" ++ ofInt (Z.of_nat (length sampleMatrix))
         ++ codes ", 22px)".
Proof.
  apply (grid_layout sampleDigits sampleTokens sampleMatrix (blankPage [])
           sampleRendered).
  vm_compute. reflexivity.
Defined.

Lemma value_cell_text_witness :
  textContent (valueCell sampleDigits 0%float 1%float (centi 73))
  = ofInt (73 / 100) ++ codes "." ++ [48 + (73 / 10) mod 10; 48 + 73 mod 10]
  /\ style_color (valueCell sampleDigits 0%float 1%float (centi 73))
     = (if 50 <? 73 then codes "var(--bg)" else codes "var(--text)")
  /\ className (valueCell sampleDigits 0%float 1%float (centi 73))
     = codes "matrix-cell value".
Proof.
  apply (value_cell_text sampleDigits 0%float 1%float 73). lia.
Defined.

Lemma run_cells_witness :
  exists token k cell,
    nth_error (pipelineTokens sampleLower (usedPage (codes "Hi there!"))) 1
    = Some token
    /\ 0 <= k <= 100
    /\ embedValue sampleSin (ofZ (tokenToId token)) 2 = centi k
    /\ nth_error (matrixGrid_children sampleRun) (9 + 1 * 9 + 1 + 2)
       = Some cell
    /\ cell
       = valueCell sampleDigits
           (heatMin (pipelineMatrix sampleLower sampleSin
                       (usedPage (codes "Hi there!"))))
           (heatRange (pipelineMatrix sampleLower sampleSin
                         (usedPage (codes "Hi there!"))))
           (centi k)
    /\ ((centi k
         =? heatMin (pipelineMatrix sampleLower sampleSin
                       (usedPage (codes "Hi there!"))))%float = true ->
        style_background cell = codes "rgb(255,255,252)")
    /\ ((centi k
         =? heatMax (pipelineMatrix sampleLower sampleSin
                       (usedPage (codes "Hi there!"))))%float = true ->
        (heatMin (pipelineMatrix sampleLower sampleSin
                    (usedPage (codes "Hi there!")))
         <? heatMax (pipelineMatrix sampleLower sampleSin
                       (usedPage (codes "Hi there!"))))%float = true ->
        style_background cell = codes "rgb(125,211,252)").
Proof.
  apply (run_cells sampleLower sampleSin sampleDigits
           (fun id d _ _ => sampleSin_range _)
           (usedPage (codes "Hi there!")) sampleRun 1 2).
  - exact sampleRun_eq.
  - vm_compute. lia.
  - lia.
Defined.

Lemma hash_loop_exact_witness :
  0 <= fold_left hashStep (codes "th") 0 < 2 ^ 32
  /\ 0 <= fold_left hashStep (codes "th") 0 * 31 + 101 < 2 ^ 53
  /\ fold_left hashStep (codes "th" ++ 101 :: codes "re") 0
     = fold_left hashStep (codes "re")
         (hashStep (fold_left hashStep (codes "th") 0) 101).
Proof.
  apply (hash_loop_exact (codes "th") (codes "re") 101).
  apply Forall_forall. intros u Hu. simpl in Hu.
  repeat (destruct Hu as [<- | Hu]; [ lia | ]). contradiction.
Defined.
